(** * midilint: velocity normalisation, grid alignment and pitch correction

    A shallow embedding of [midilint.py].  Python integers are modelled as
    [Z]; a [mido.MidiFile] is a record holding [ticks_per_beat] and the list
    of tracks; a track is the list of its messages in order.  The functions
    of the module mutate the messages they are given and return the file
    they were called with: the embedding returns the file as it stands after
    the call.  A call that raises is modelled by [Raise], which also carries
    the file (or track) as it stands when the exception leaves the function,
    so that what was mutated before a failure can be stated.

    Messages are modelled as values: every message object is assumed to
    occur once in the file, as in the files [mido] parses.

    The quotient [(message.time + shift) / tick] of [align] is a float: it
    is modelled as the correctly rounded binary64 quotient of the two
    integers, with the [OverflowError] of a quotient too large for a
    float. *)

From Stdlib Require Import ZArith List Bool Lia String Ascii.
Import ListNotations.
Local Open Scope Z_scope.

(** ** Python primitives used by the module *)

Module Py.

(** The exceptions the module can raise.  [ValueError] is what [align]
    raises for a bad grid, and what [min] raises on an empty sequence;
    [OverflowError] is what [/] raises on two integers whose quotient is
    too large for a float. *)
Inductive exn : Type :=
| ValueError
| ZeroDivisionError
| OverflowError.

(** Binary digits of a positive number, most significant first. *)
Fixpoint bin_digits (p : positive) : string :=
  match p with
  | xH => "1"
  | xO q => bin_digits q ++ "0"
  | xI q => bin_digits q ++ "1"
  end.

(** [bin(n)]: the digits of the absolute value behind ["0b"], with a
    leading minus sign for a negative number. *)
Definition bin (n : Z) : string :=
  match n with
  | Z0 => "0b0"
  | Zpos p => "0b" ++ bin_digits p
  | Zneg p => "-0b" ++ bin_digits p
  end.

(** [s.count(c)] for a one-character pattern. *)
Fixpoint count (c : ascii) (s : string) : nat :=
  match s with
  | EmptyString => O
  | String a rest => ((if Ascii.eqb a c then 1 else 0) + count c rest)%nat
  end.

(** [a // b] and [a % b]: floor division and the remainder that has the
    sign of the divisor, as [Z.div] and [Z.modulo]; both raise
    [ZeroDivisionError] (here [None]) on a zero divisor. *)
Definition floordiv (a b : Z) : option Z :=
  if b =? 0 then None else Some (a / b).

Definition mod_ (a b : Z) : option Z :=
  if b =? 0 then None else Some (a mod b).

(** The exact quotient [x / t], [0 < t], rounded to the nearest integer,
    a tie going to the even neighbour. *)
Definition round_half_even (x t : Z) : Z :=
  let q := x / t in
  match 2 * (x mod t) ?= t with
  | Lt => q
  | Gt => q + 1
  | Eq => if Z.even q then q else q + 1
  end.

(** A finite float (IEEE binary64): [mantissa * 2 ^ exponent], with a
    mantissa of magnitude [2 ^ 53] at most and an exponent of -1074 at
    least. *)
Record float : Type := mkFloat {
  mantissa : Z;
  exponent : Z
}.

(** The fraction [(a / b) / 2 ^ e], numerator and denominator. *)
Definition scaled (a b e : Z) : Z * Z :=
  (a * 2 ^ Z.max 0 (- e), b * 2 ^ Z.max 0 e).

(** The integer part of the binary logarithm of [a / b], [0 < a] and
    [0 < b]: the difference of the logarithms, or one less. *)
Definition quotient_log2 (a b : Z) : Z :=
  let d := Z.log2 a - Z.log2 b in
  if fst (scaled a b d) <? snd (scaled a b d) then d - 1 else d.

(** [a / b] on two integers: the float nearest to the exact quotient, a
    tie going to the even mantissa.  The quotient is scaled to a mantissa
    of 53 bits (fewer below [2 ^ -1022], where floats are subnormal) and
    the mantissa rounded; a result of [2 ^ 1024] or more is an
    [OverflowError], a zero divisor a [ZeroDivisionError]. *)
Definition truediv (a b : Z) : exn + float :=
  if b =? 0 then inl ZeroDivisionError
  else if a =? 0 then inr (mkFloat 0 0)
  else
    let e := Z.max (quotient_log2 (Z.abs a) (Z.abs b) - 52) (-1074) in
    let m := round_half_even (fst (scaled (Z.abs a) (Z.abs b) e))
                             (snd (scaled (Z.abs a) (Z.abs b) e)) in
    if 2 ^ 1024 <=? m * 2 ^ Z.max 0 e then inl OverflowError
    else inr (mkFloat (Z.sgn a * Z.sgn b * m) e).

(** [round(f)] on a float: the nearest integer, a tie going to the even
    one. *)
Definition round (f : float) : Z :=
  round_half_even (mantissa f * 2 ^ Z.max 0 (exponent f))
                  (2 ^ Z.max 0 (- exponent f)).

(** [round(x / t)] on two integers. *)
Definition round_truediv (x t : Z) : exn + Z :=
  match truediv x t with
  | inl e => inl e
  | inr f => inr (round f)
  end.

(** An integer that a float holds exactly: below [2 ^ 1024], and of at
    most 53 bits or a multiple of the power of two that leaves 53 bits. *)
Definition float_integer (y : Z) : Prop :=
  Z.abs y < 2 ^ 1024 /\
  (Z.log2 (Z.abs y) <= 52 \/
   exists c, Z.abs y = c * 2 ^ (Z.log2 (Z.abs y) - 52)).

(** [x in l] for a list of integers. *)
Definition contains (x : Z) (l : list Z) : bool := existsb (Z.eqb x) l.

(** The scan of [min(l, key=k)] after its first element: a later element
    replaces the current one only when its key is strictly smaller. *)
Fixpoint min_scan (k : Z -> Z) (best : Z) (l : list Z) : Z :=
  match l with
  | [] => best
  | x :: rest => min_scan k (if k x <? k best then x else best) rest
  end.

(** [min(l, key=k)]; [None] is the [ValueError] of an empty sequence. *)
Definition min_by (k : Z -> Z) (l : list Z) : option Z :=
  match l with
  | [] => None
  | x :: rest => Some (min_scan k x rest)
  end.

End Py.

(** ** Event model *)

Inductive msg_type : Type :=
| note_on
| note_off
| other.

(** A message: its type, its delta-time [time], and the [note] and
    [velocity] attributes of a note message (carried along untouched on
    other messages). *)
Record Message : Type := mkMessage {
  type : msg_type;
  time : Z;
  note : Z;
  velocity : Z
}.

Definition MidiTrack : Type := list Message.

Record MidiFile : Type := mkMidiFile {
  ticks_per_beat : Z;
  tracks : list MidiTrack
}.

(** [message.type in ("note_on", "note_off")] *)
Definition is_note (m : Message) : bool :=
  match type m with
  | note_on | note_off => true
  | other => false
  end.

Definition set_time (m : Message) (t : Z) : Message :=
  mkMessage (type m) t (note m) (velocity m).

Definition set_note (m : Message) (n : Z) : Message :=
  mkMessage (type m) (time m) n (velocity m).

Definition set_velocity (m : Message) (v : Z) : Message :=
  mkMessage (type m) (time m) (note m) v.

Definition set_tracks (f : MidiFile) (trs : list MidiTrack) : MidiFile :=
  mkMidiFile (ticks_per_beat f) trs.

(** ** Outcomes of a call that mutates its argument *)

Inductive outcome (A : Type) : Type :=
| Return (a : A)
| Raise (e : Py.exn) (a : A).

Arguments Return {A} a.
Arguments Raise {A} e a.

(** The object as the call leaves it, whether it returned or raised. *)
Definition final {A : Type} (o : outcome A) : A :=
  match o with
  | Return a => a
  | Raise _ a => a
  end.

Definition omap {A B : Type} (f : A -> B) (o : outcome A) : outcome B :=
  match o with
  | Return a => Return (f a)
  | Raise e a => Raise e (f a)
  end.

Definition raises {A : Type} (e : Py.exn) (o : outcome A) : Prop :=
  exists a, o = Raise e a.

(** [for x in l: body(x)]: the elements are visited in order and the loop
    stops at the first one whose body raises, leaving the later ones as they
    were. *)
Fixpoint for_each {A : Type} (body : A -> outcome A) (l : list A)
  : outcome (list A) :=
  match l with
  | [] => Return []
  | x :: rest =>
      match body x with
      | Return x' => omap (cons x') (for_each body rest)
      | Raise e x' => Raise e (x' :: rest)
      end
  end.

(** ** normalize *)

Definition normalize_message (velocity : Z) (message : Message) : Message :=
  if is_note message then set_velocity message velocity else message.

Definition normalize (source : MidiFile) (velocity : Z) : MidiFile :=
  set_tracks source (map (map (normalize_message velocity)) (tracks source)).

(** ** align *)

Definition on_first {A B : Type} (f : A -> A) (p : A * B) : A * B :=
  (f (fst p), snd p).

(** The loop over the messages of one track, started with the carried
    [shift].  It yields the track and the shift as the loop leaves them.
    Note that the test of the source, [message.time + shift % tick != 0],
    is [message.time + (shift % tick) != 0], and that the quotient of line
    49 is a float. *)
Fixpoint align_messages (tick shift : Z) (track : MidiTrack)
  : outcome (MidiTrack * Z) :=
  match track with
  | [] => Return ([], shift)
  | message :: rest =>
      if negb (is_note message) then
        omap (on_first (cons message)) (align_messages tick shift rest)
      else
        match Py.mod_ shift tick with
        | None => Raise Py.ZeroDivisionError (message :: rest, shift)
        | Some r =>
            if negb (time message + r =? 0) then
              let original := time message + shift in
              match Py.round_truediv (time message + shift) tick with
              | inl e => Raise e (message :: rest, shift)
              | inr q =>
                  let message' := set_time message (tick * q) in
                  let shift' := original - time message' in
                  omap (on_first (cons message'))
                       (align_messages tick shift' rest)
              end
            else
              omap (on_first (cons message)) (align_messages tick shift rest)
        end
  end.

(** The body of the loop over the tracks: [shift = 0], then the messages. *)
Definition align_track (tick : Z) (track : MidiTrack) : outcome MidiTrack :=
  omap fst (align_messages tick 0 track).

Definition align (source : MidiFile) (precision : Z) : outcome MidiFile :=
  if negb (Py.count "1" (Py.bin (ticks_per_beat source)) =? 1)%nat then
    Raise Py.ValueError source
  else if negb (Py.count "1" (Py.bin precision) =? 1)%nat then
    Raise Py.ValueError source
  else
    match Py.floordiv (ticks_per_beat source) precision with
    | None => Raise Py.ZeroDivisionError source
    | Some tick =>
        omap (set_tracks source) (for_each (align_track tick) (tracks source))
    end.

(** ** The pitch strategies *)

(** [while message.note < 127 and message.note not in notes:
       message.note += 1].
    The loop runs at most [127 - note] times; the fuel is that number, and
    [while_raise_exit] below shows the loop condition false at the result. *)
Fixpoint while_raise_fuel (fuel : nat) (notes : list Z) (n : Z) : Z :=
  match fuel with
  | O => n
  | S fuel' =>
      if (n <? 127) && negb (Py.contains n notes)
      then while_raise_fuel fuel' notes (n + 1)
      else n
  end.

Definition while_raise (notes : list Z) (n : Z) : Z :=
  while_raise_fuel (Z.to_nat (127 - n)) notes n.

(** [while message.note > 0 and message.note not in notes:
       message.note -= 1].
    The loop runs at most [note] times. *)
Fixpoint while_lower_fuel (fuel : nat) (notes : list Z) (n : Z) : Z :=
  match fuel with
  | O => n
  | S fuel' =>
      if (0 <? n) && negb (Py.contains n notes)
      then while_lower_fuel fuel' notes (n - 1)
      else n
  end.

Definition while_lower (notes : list Z) (n : Z) : Z :=
  while_lower_fuel (Z.to_nat n) notes n.

(** What [shift_up] and [shift_down] do to the pitch of one note message. *)
Definition shift_up_note (notes : list Z) (n : Z) : Z :=
  while_lower notes (while_raise notes n).

Definition shift_down_note (notes : list Z) (n : Z) : Z :=
  while_raise notes (while_lower notes n).

Definition shift_up_message (notes : list Z) (message : Message)
  : outcome Message :=
  if negb (is_note message) then Return message
  else Return (set_note message (shift_up_note notes (note message))).

Definition shift_down_message (notes : list Z) (message : Message)
  : outcome Message :=
  if negb (is_note message) then Return message
  else Return (set_note message (shift_down_note notes (note message))).

(** [min(notes, key=lambda x: abs(x - message.note))]; the key reads the
    pitch the message has before the assignment. *)
Definition nearest (notes : list Z) (n : Z) : option Z :=
  Py.min_by (fun x => Z.abs (x - n)) notes.

Definition shift_nearest_message (notes : list Z) (message : Message)
  : outcome Message :=
  if is_note message then
    match nearest notes (note message) with
    | None => Raise Py.ValueError message
    | Some n => Return (set_note message n)
    end
  else Return message.

(** A strategy is called with a track and the pitches of the key. *)
Definition Strategy : Type := MidiTrack -> list Z -> outcome MidiTrack.

Definition shift_up : Strategy :=
  fun track notes => for_each (shift_up_message notes) track.

Definition shift_down : Strategy :=
  fun track notes => for_each (shift_down_message notes) track.

Definition shift_nearest : Strategy :=
  fun track notes => for_each (shift_nearest_message notes) track.

(** ** correct_pitch *)

(** The key and the two functions of [midi_abstraction] used on it belong to
    another package; [correct_pitch] is modelled over any such resolver. *)
Record KeyResolver : Type := mkKeyResolver {
  Key : Type;
  NoteName : Type;
  list_notes : Key -> list NoteName;
  midi_notes : NoteName -> list Z
}.

(** [notes = []; for n in key.list_notes(): notes.extend(notes(n))] *)
Definition key_pitches (R : KeyResolver) (key : Key R) : list Z :=
  flat_map (midi_notes R) (list_notes R key).

Definition correct_pitch (R : KeyResolver) (source : MidiFile) (key : Key R)
  (strategy : Strategy) : outcome MidiFile :=
  let notes := key_pitches R key in
  omap (set_tracks source)
       (for_each (fun track => strategy track notes) (tracks source)).

(** A resolver whose keys list their pitches directly. *)
Definition plain_keys : KeyResolver :=
  mkKeyResolver (list Z) Z (fun key => key) (fun n => [n]).

(** ** Vocabulary of the specification *)

Definition power_of_two (n : Z) : Prop := exists k : nat, n = 2 ^ Z.of_nat k.

(** Sum of the delta-times of the note messages of a track. *)
Fixpoint note_time_sum (track : MidiTrack) : Z :=
  match track with
  | [] => 0
  | m :: rest => (if is_note m then time m else 0) + note_time_sum rest
  end.

(** The Grid Aligner as the specification words it: every note message is
    put through the formula, with no test before it. *)
Fixpoint quantize_messages (tick shift : Z) (track : MidiTrack)
  : MidiTrack * Z :=
  match track with
  | [] => ([], shift)
  | m :: rest =>
      if is_note m then
        let original := time m + shift in
        let quantized := tick * Py.round_half_even original tick in
        on_first (cons (set_time m quantized))
                 (quantize_messages tick (original - quantized) rest)
      else on_first (cons m) (quantize_messages tick shift rest)
  end.

Definition quantize_track (tick : Z) (track : MidiTrack) : MidiTrack :=
  fst (quantize_messages tick 0 track).

(** All note messages of a track lie on the grid. *)
Definition on_grid (tick : Z) (track : MidiTrack) : Prop :=
  Forall (fun m => is_note m = true -> time m mod tick = 0) track.

Definition in_range (notes : list Z) : Prop :=
  Forall (fun a => 0 <= a <= 127) notes.

Definition smallest_at_or_above (notes : list Z) (n r : Z) : Prop :=
  In r notes /\ n <= r /\ forall a, In a notes -> n <= a -> r <= a.

Definition largest_at_or_below (notes : list Z) (n r : Z) : Prop :=
  In r notes /\ r <= n /\ forall a, In a notes -> a <= n -> a <= r.

(** [r] is an element of [notes] at the least distance from [n], and the
    first one in the order of the list: the elements before it are strictly
    farther from [n]. *)
Definition first_nearest (notes : list Z) (n r : Z) : Prop :=
  exists before after : list Z,
    notes = before ++ r :: after /\
    (forall a, In a before -> Z.abs (r - n) < Z.abs (a - n)) /\
    (forall a, In a after -> Z.abs (r - n) <= Z.abs (a - n)).

(** The delta-times of the data model are not negative. *)
Definition nonneg_times (f : MidiFile) : Prop :=
  Forall (Forall (fun m => 0 <= time m)) (tracks f).

(** The range in which the float quotients of [align] are exact:
    [ticks_per_beat] up to [2 ^ 52] and delta-times below [2 ^ 52] in
    absolute value.  Every MIDI file lies within it: a delta-time is a
    variable-length quantity below [2 ^ 28] and [ticks_per_beat] a field
    of 15 bits. *)
Definition float_range (f : MidiFile) : Prop :=
  ticks_per_beat f <= 2 ^ 52 /\
  Forall (Forall (fun m => Z.abs (time m) < 2 ^ 52)) (tracks f).

(** All note messages of a track lie on the grid, at a multiple of the
    grid unit that a float holds. *)
Definition on_float_grid (tick : Z) (track : MidiTrack) : Prop :=
  Forall (fun m => is_note m = true ->
                   exists q, time m = tick * q /\ Py.float_integer q)
         track.

(** Some track of the file holds a note message. *)
Definition has_note (f : MidiFile) : bool :=
  existsb (existsb is_note) (tracks f).

(** The message a strategy leaves in place of [m] when it returns. *)
Definition shift_up_result (notes : list Z) (m : Message) : Message :=
  if is_note m then set_note m (shift_up_note notes (note m)) else m.

Definition shift_down_result (notes : list Z) (m : Message) : Message :=
  if is_note m then set_note m (shift_down_note notes (note m)) else m.

Definition shift_nearest_result (notes : list Z) (m : Message) : Message :=
  if is_note m then
    match nearest notes (note m) with
    | Some r => set_note m r
    | None => m
    end
  else m.

(** The message [m] with the pitch of its note, if it is one, set to [n]. *)
Definition with_pitch (n : Z) (m : Message) : Message :=
  if is_note m then set_note m n else m.

(** What each transform may change on a message. *)
Definition same_but_time (m m' : Message) : Prop :=
  type m' = type m /\ note m' = note m /\ velocity m' = velocity m /\
  (is_note m = false -> m' = m).

Definition same_but_note (m m' : Message) : Prop :=
  type m' = type m /\ time m' = time m /\ velocity m' = velocity m /\
  (is_note m = false -> m' = m).

Definition same_but_velocity (m m' : Message) : Prop :=
  type m' = type m /\ time m' = time m /\ note m' = note m /\
  (is_note m = false -> m' = m).

(** [m'] is [m] normalized to the velocity [v]: a note message with that
    velocity and the rest of [m], another message as it was. *)
Definition normalized_to (v : Z) (m m' : Message) : Prop :=
  same_but_velocity m m' /\ (is_note m = true -> velocity m' = v).

(** Two files have the same tracks and messages, position by position, up
    to what [R] allows on a message. *)
Definition same_layout (R : Message -> Message -> Prop) (f f' : MidiFile)
  : Prop :=
  ticks_per_beat f' = ticks_per_beat f /\
  Forall2 (Forall2 R) (tracks f) (tracks f').

(** The absolute time reached at the end of a track: the sum of all its
    delta-times, note messages and others alike. *)
Fixpoint time_sum (track : MidiTrack) : Z :=
  match track with
  | [] => 0
  | m :: rest => time m + time_sum rest
  end.

(** The file with every message replaced by its image under [f]. *)
Definition map_messages (f : Message -> Message) (s : MidiFile) : MidiFile :=
  set_tracks s (map (map f) (tracks s)).

(** [f] keeps the type and the delta-time of a message and does the same
    to a message whatever its delta-time. *)
Definition time_blind (f : Message -> Message) : Prop :=
  (forall m, is_note (f m) = is_note m) /\
  (forall m, time (f m) = time m) /\
  (forall m t, f (set_time m t) = set_time (f m) t).

(** Every note message of the file has a pitch in 0-127. *)
Definition pitches_in_range (f : MidiFile) : Prop :=
  Forall (Forall (fun m => is_note m = true -> 0 <= note m <= 127))
         (tracks f).

(** Every note message of the file has a pitch of [notes]. *)
Definition pitches_in_key (notes : list Z) (f : MidiFile) : Prop :=
  Forall (Forall (fun m => is_note m = true -> In (note m) notes))
         (tracks f).

(** The three strategies of the module. *)
Definition is_strategy (strategy : Strategy) : Prop :=
  strategy = shift_up \/ strategy = shift_down \/ strategy = shift_nearest.

(** * Properties *)

(** ** Python primitives *)

Module PyFacts.
Import Py.

Lemma count_append (c : ascii) (s1 s2 : string) :
  count c (s1 ++ s2) = (count c s1 + count c s2)%nat.
Proof.
  induction s1 as [|a s1 IH]; simpl; [reflexivity|].
  rewrite IH. lia.
Qed.

Lemma count_digits_positive (p : positive) :
  (1 <= count "1" (bin_digits p))%nat.
Proof.
  induction p as [q IH|q IH|]; cbn [bin_digits];
    rewrite ?count_append; cbn; lia.
Qed.

Lemma power_of_two_pos (n : Z) : power_of_two n -> 0 < n.
Proof. intros [k ->]. apply Z.pow_pos_nonneg; lia. Qed.

Lemma power_of_two_double (n : Z) :
  power_of_two (2 * n) <-> power_of_two n.
Proof.
  split.
  - intros [k Hk]. destruct k as [|k].
    + change (Z.of_nat 0) with 0 in Hk. rewrite Z.pow_0_r in Hk. lia.
    + exists k. rewrite Nat2Z.inj_succ, Z.pow_succ_r in Hk by lia. lia.
  - intros [k ->]. exists (S k).
    rewrite Nat2Z.inj_succ, Z.pow_succ_r by lia. reflexivity.
Qed.

Lemma power_of_two_odd (n : Z) : 0 < n -> ~ power_of_two (2 * n + 1).
Proof.
  intros Hn [k Hk]. destruct k as [|k].
  - change (Z.of_nat 0) with 0 in Hk. rewrite Z.pow_0_r in Hk. lia.
  - rewrite Nat2Z.inj_succ, Z.pow_succ_r in Hk by lia. lia.
Qed.

(** Exactly one digit [1] in the binary digits of [p]: [p] is a power of
    two. *)
Lemma count_digits_one (p : positive) :
  count "1" (bin_digits p) = 1%nat <-> power_of_two (Zpos p).
Proof.
  induction p as [q IH|q IH|].
  - cbn [bin_digits]. rewrite count_append. cbn.
    pose proof (count_digits_positive q) as Hq.
    split; [lia|]. intros H. exfalso.
    replace (Zpos q~1) with (2 * Zpos q + 1) in H by lia.
    revert H. apply power_of_two_odd. lia.
  - cbn [bin_digits]. rewrite count_append. cbn. rewrite Nat.add_0_r, IH.
    replace (Zpos q~0) with (2 * Zpos q) by lia.
    symmetry. apply power_of_two_double.
  - simpl. split; [|reflexivity]. intros _. exists O. reflexivity.
Qed.

(** The test of [align] accepts exactly the numbers whose absolute value
    is a power of two: the minus sign of [bin] is not a digit. *)
Lemma count_bin_one (n : Z) :
  count "1" (bin n) = 1%nat <-> power_of_two (Z.abs n).
Proof.
  destruct n as [|p|p].
  - simpl. split; [discriminate|].
    intros H. apply power_of_two_pos in H. lia.
  - change (count "1" (bin (Zpos p))) with (count "1" (bin_digits p)).
    apply count_digits_one.
  - change (count "1" (bin (Zneg p))) with (count "1" (bin_digits p)).
    apply count_digits_one.
Qed.

Lemma count_bin_power_of_two (n : Z) :
  power_of_two n -> (count "1" (bin n) =? 1)%nat = true.
Proof.
  intros H. apply Nat.eqb_eq, count_bin_one.
  pose proof (power_of_two_pos n H). rewrite Z.abs_eq by lia. exact H.
Qed.

Lemma count_bin_not_power_of_two (n : Z) :
  0 <= n -> ~ power_of_two n -> (count "1" (bin n) =? 1)%nat = false.
Proof.
  intros Hn H. apply Nat.eqb_neq. rewrite count_bin_one.
  rewrite Z.abs_eq by lia. exact H.
Qed.

(** The grid unit of two powers of two. *)
Lemma tick_positive (a b : Z) :
  power_of_two a -> power_of_two b -> b <= a -> 0 < a / b.
Proof.
  intros Ha Hb Hle. apply power_of_two_pos in Hb.
  apply Z.div_str_pos. lia.
Qed.

Lemma tick_zero (a b : Z) :
  power_of_two a -> power_of_two b -> a < b -> a / b = 0.
Proof.
  intros Ha Hb Hlt. apply power_of_two_pos in Ha.
  apply Z.div_small. lia.
Qed.

Lemma tick_power_of_two (a b : Z) :
  power_of_two a -> power_of_two b -> b <= a -> power_of_two (a / b).
Proof.
  intros [i ->] [j ->] Hle.
  assert (Hij : (j <= i)%nat).
  { destruct (Nat.le_gt_cases j i) as [H|H]; [exact H|].
    exfalso.
    assert (2 ^ Z.of_nat i < 2 ^ Z.of_nat j)
      by (apply Z.pow_lt_mono_r; lia).
    lia. }
  exists (i - j)%nat.
  rewrite Nat2Z.inj_sub by exact Hij.
  rewrite Z.pow_sub_r by lia. reflexivity.
Qed.

(** [round_half_even] is a nearest integer: the rounding error is at most
    half of [t]. *)
Lemma round_half_even_error (x t : Z) :
  0 < t -> 2 * Z.abs (x - t * round_half_even x t) <= t.
Proof.
  intros Ht. unfold round_half_even.
  pose proof (Z.div_mod x t ltac:(lia)) as Hx.
  pose proof (Z.mod_pos_bound x t Ht) as Hr.
  set (q := x / t) in *. set (r := x mod t) in *.
  destruct (Z.compare_spec (2 * r) t) as [He|Hl|Hg];
    [destruct (Z.even q)| |]; nia.
Qed.

(** On a tie the even neighbour is taken. *)
Lemma round_half_even_tie (x t : Z) :
  0 < t -> 2 * Z.abs (x - t * round_half_even x t) = t ->
  Z.even (round_half_even x t) = true.
Proof.
  intros Ht. unfold round_half_even.
  pose proof (Z.div_mod x t ltac:(lia)) as Hx.
  pose proof (Z.mod_pos_bound x t Ht) as Hr.
  set (q := x / t) in *. set (r := x mod t) in *.
  destruct (Z.compare_spec (2 * r) t) as [He|Hl|Hg].
  - intros _. destruct (Z.even q) eqn:Hq; [exact Hq|].
    rewrite Z.even_add, Hq. reflexivity.
  - intros H. exfalso. nia.
  - intros H. exfalso. nia.
Qed.

(** A multiple of [t] is its own rounding. *)
Lemma round_half_even_multiple (x t : Z) :
  0 < t -> x mod t = 0 -> t * round_half_even x t = x.
Proof.
  intros Ht Hm. unfold round_half_even. rewrite Hm.
  replace (2 * 0 ?= t) with Lt by (symmetry; apply Z.compare_lt_iff; lia).
  pose proof (Z.div_mod x t ltac:(lia)). lia.
Qed.

Lemma round_half_even_scale (c x t : Z) :
  0 < c -> 0 < t -> round_half_even (c * x) (c * t) = round_half_even x t.
Proof.
  intros Hc Ht. unfold round_half_even.
  rewrite Z.div_mul_cancel_l by lia.
  rewrite Z.mul_mod_distr_l by lia.
  replace (2 * (c * (x mod t))) with (c * (2 * (x mod t))) by ring.
  destruct (Z.compare_spec (2 * (x mod t)) t),
    (Z.compare_spec (c * (2 * (x mod t))) (c * t)); try reflexivity; nia.
Qed.

Lemma round_half_even_exact (x t : Z) :
  0 < t -> round_half_even (t * x) t = x.
Proof.
  intros Ht. unfold round_half_even.
  replace (t * x) with (x * t) by ring.
  rewrite Z.mod_mul, Z.div_mul by lia.
  replace (2 * 0 ?= t) with Lt by (symmetry; apply Z.compare_lt_iff; lia).
  reflexivity.
Qed.

Lemma round_half_even_one (x : Z) : round_half_even x 1 = x.
Proof. rewrite <- (Z.mul_1_l x) at 1. apply round_half_even_exact. lia. Qed.

(** The float quotient is the exact quotient when the divisor is a power
    of two up to [2 ^ 1022] and the dividend has at most 53 bits: the
    mantissa holds the dividend, and [round] sees the exact quotient. *)
Lemma round_truediv_exact (x k : Z) :
  0 <= k <= 1022 -> Z.abs x < 2 ^ 53 ->
  round_truediv x (2 ^ k) = inr (round_half_even x (2 ^ k)).
Proof.
  intros Hk Hx. unfold round_truediv, truediv.
  assert (Ht : 0 < 2 ^ k) by (apply Z.pow_pos_nonneg; lia).
  destruct (Z.eqb_spec (2 ^ k) 0) as [E|_]; [lia|].
  destruct (Z.eqb_spec x 0) as [->|Hx0].
  { unfold round. simpl mantissa. simpl exponent. f_equal.
    change (0 * 2 ^ Z.max 0 0) with 0. change (2 ^ Z.max 0 (- 0)) with 1.
    rewrite round_half_even_one. unfold round_half_even.
    rewrite Z.div_0_l, Z.mod_0_l by lia.
    replace (2 * 0 ?= 2 ^ k) with Lt
      by (symmetry; apply Z.compare_lt_iff; lia).
    reflexivity. }
  set (a := Z.abs x). assert (Ha : 0 < a) by (unfold a; lia).
  rewrite (Z.abs_eq (2 ^ k)) by lia.
  pose proof (Z.log2_spec a Ha) as Hl.
  pose proof (Z.log2_nonneg a) as Hl0.
  set (L := Z.log2 a) in *.
  assert (HL : L <= 52).
  { assert (L < 53); [|lia]. apply Z.log2_lt_pow2; [exact Ha|exact Hx]. }
  assert (Hq : quotient_log2 a (2 ^ k) = L - k).
  { unfold quotient_log2, scaled. rewrite Z.log2_pow2 by lia. fold L.
    cbn [fst snd].
    destruct (Z.ltb_spec (a * 2 ^ Z.max 0 (- (L - k)))
                         (2 ^ k * 2 ^ Z.max 0 (L - k))) as [Hlt|Hge];
      [exfalso|reflexivity].
    destruct (Z.le_gt_cases k L) as [Hkl|Hkl].
    - rewrite (Z.max_l 0 (- (L - k))), (Z.max_r 0 (L - k)) in Hlt by lia.
      rewrite <- Z.pow_add_r in Hlt by lia.
      replace (k + (L - k)) with L in Hlt by lia.
      change (2 ^ 0) with 1 in Hlt. lia.
    - rewrite (Z.max_r 0 (- (L - k))), (Z.max_l 0 (L - k)) in Hlt by lia.
      change (2 ^ 0) with 1 in Hlt.
      assert (2 ^ L * 2 ^ (- (L - k)) <= a * 2 ^ (- (L - k))).
      { apply Z.mul_le_mono_nonneg_r; [apply Z.pow_nonneg; lia|lia]. }
      rewrite <- Z.pow_add_r in H by lia.
      replace (L + - (L - k)) with k in H by lia. lia. }
  rewrite Hq. rewrite (Z.max_l (L - k - 52) (-1074)) by lia.
  unfold scaled. cbn [fst snd].
  rewrite (Z.max_r 0 (- (L - k - 52))), (Z.max_l 0 (L - k - 52)) by lia.
  change (2 ^ 0) with 1. rewrite !Z.mul_1_r.
  replace (- (L - k - 52)) with (k + (52 - L)) by lia.
  rewrite Z.pow_add_r by lia.
  replace (a * (2 ^ k * 2 ^ (52 - L))) with (2 ^ k * (a * 2 ^ (52 - L)))
    by ring.
  rewrite round_half_even_exact by exact Ht.
  assert (Hc : 0 < 2 ^ (52 - L)) by (apply Z.pow_pos_nonneg; lia).
  assert (Hm : a * 2 ^ (52 - L) < 2 ^ 53).
  { assert (a * 2 ^ (52 - L) < 2 ^ Z.succ L * 2 ^ (52 - L)).
    { apply Z.mul_lt_mono_pos_r; [exact Hc|lia]. }
    rewrite <- Z.pow_add_r in H by lia.
    replace (Z.succ L + (52 - L)) with 53 in H by lia. exact H. }
  destruct (Z.leb_spec (2 ^ 1024) (a * 2 ^ (52 - L))) as [Ho|_].
  { exfalso. assert (2 ^ 53 < 2 ^ 1024) by (apply Z.pow_lt_mono_r; lia). lia. }
  f_equal. unfold round. cbn [mantissa exponent].
  rewrite (Z.max_l 0 (L - k - 52)), (Z.max_r 0 (- (L - k - 52))) by lia.
  change (2 ^ 0) with 1. rewrite Z.mul_1_r.
  replace (- (L - k - 52)) with ((52 - L) + k) by lia.
  rewrite Z.pow_add_r by lia.
  assert (Hs : Z.sgn (2 ^ k) = 1) by (apply Z.sgn_pos; exact Ht).
  rewrite Hs, Z.mul_1_r.
  replace (Z.sgn x * (a * 2 ^ (52 - L)))
    with (2 ^ (52 - L) * (Z.sgn x * a)) by ring.
  rewrite round_half_even_scale by assumption.
  unfold a. replace (Z.sgn x * Z.abs x) with x by lia. reflexivity.
Qed.

(** The same on a grid unit: a power of two up to [2 ^ 52]. *)
Lemma round_truediv_grid (x t : Z) :
  power_of_two t -> t <= 2 ^ 52 -> Z.abs x < 2 ^ 53 ->
  round_truediv x t = inr (round_half_even x t).
Proof.
  intros [k ->] Ht Hx. apply round_truediv_exact; [|exact Hx].
  split; [lia|].
  assert (Z.of_nat k <= 52); [|lia].
  apply (Z.pow_le_mono_r_iff 2); [lia|lia|exact Ht].
Qed.

Lemma quotient_log2_pow2 (a k : Z) :
  0 < a -> 0 <= k -> quotient_log2 a (2 ^ k) = Z.log2 a - k.
Proof.
  intros Ha Hk. unfold quotient_log2, scaled. rewrite Z.log2_pow2 by lia.
  pose proof (Z.log2_spec a Ha) as Hl.
  pose proof (Z.log2_nonneg a) as Hl0.
  set (L := Z.log2 a) in *. cbn [fst snd].
  destruct (Z.ltb_spec (a * 2 ^ Z.max 0 (- (L - k)))
                       (2 ^ k * 2 ^ Z.max 0 (L - k))) as [Hlt|Hge];
    [exfalso|reflexivity].
  destruct (Z.le_gt_cases k L) as [Hkl|Hkl].
  - rewrite (Z.max_l 0 (- (L - k))), (Z.max_r 0 (L - k)) in Hlt by lia.
    rewrite <- Z.pow_add_r in Hlt by lia.
    replace (k + (L - k)) with L in Hlt by lia.
    change (2 ^ 0) with 1 in Hlt. lia.
  - rewrite (Z.max_r 0 (- (L - k))), (Z.max_l 0 (L - k)) in Hlt by lia.
    change (2 ^ 0) with 1 in Hlt.
    assert (2 ^ L * 2 ^ (- (L - k)) <= a * 2 ^ (- (L - k))).
    { apply Z.mul_le_mono_nonneg_r; [apply Z.pow_nonneg; lia|lia]. }
    rewrite <- Z.pow_add_r in H by lia.
    replace (L + - (L - k)) with k in H by lia. lia.
Qed.

Lemma round_half_even_lower (n d c : Z) :
  0 < d -> c * d <= n -> c <= round_half_even n d.
Proof.
  intros Hd H. unfold round_half_even.
  pose proof (Z.div_mod n d ltac:(lia)) as Hn.
  pose proof (Z.mod_pos_bound n d Hd) as Hr.
  set (q := n / d) in *. set (r := n mod d) in *.
  assert (c <= q) by nia.
  destruct (2 * r ?= d); [destruct (Z.even q)| |]; lia.
Qed.

Lemma round_half_even_upper (n d c : Z) :
  0 < d -> n < c * d -> round_half_even n d <= c.
Proof.
  intros Hd H. unfold round_half_even.
  pose proof (Z.div_mod n d ltac:(lia)) as Hn.
  pose proof (Z.mod_pos_bound n d Hd) as Hr.
  set (q := n / d) in *. set (r := n mod d) in *.
  assert (q < c) by nia.
  destruct (2 * r ?= d); [destruct (Z.even q)| |]; lia.
Qed.

(** Rounding a quotient by 1 or more does not increase its magnitude. *)
Lemma round_half_even_abs (z d : Z) :
  0 < d -> Z.abs (round_half_even z d) <= Z.abs z.
Proof.
  intros Hd. destruct (Z.le_gt_cases 0 z) as [Hz|Hz].
  - assert (0 <= round_half_even z d)
      by (apply round_half_even_lower; [exact Hd|lia]).
    destruct (Z.eq_dec z 0) as [->|Hne].
    + unfold round_half_even. rewrite Z.div_0_l, Z.mod_0_l by lia.
      replace (2 * 0 ?= d) with Lt
        by (symmetry; apply Z.compare_lt_iff; lia).
      simpl. lia.
    + assert (round_half_even z d <= z).
      { unfold round_half_even.
        pose proof (Z.div_mod z d ltac:(lia)) as Hn.
        pose proof (Z.mod_pos_bound z d Hd) as Hr.
        set (q := z / d) in *. set (r := z mod d) in *.
        assert (0 <= q) by nia.
        destruct (Z.compare_spec (2 * r) d); [destruct (Z.even q)| |]; nia. }
      lia.
  - assert (round_half_even z d <= 0)
      by (apply round_half_even_upper; [exact Hd|lia]).
    assert (z <= round_half_even z d)
      by (apply round_half_even_lower; [exact Hd|nia]).
    lia.
Qed.

Lemma pow2_53_lt_1024 : 2 ^ 53 < 2 ^ 1024.
Proof. apply Z.pow_lt_mono_r; lia. Qed.

Lemma float_integer_small (q : Z) : Z.abs q <= 2 ^ 53 -> float_integer q.
Proof.
  intros Hq. pose proof pow2_53_lt_1024. split; [lia|].
  destruct (Z.eq_dec (Z.abs q) (2 ^ 53)) as [E|E].
  - right. exists (2 ^ 52). rewrite E, Z.log2_pow2 by lia. reflexivity.
  - left. destruct (Z.eq_dec (Z.abs q) 0) as [->|E0]; [simpl; lia|].
    assert (Z.log2 (Z.abs q) < 53); [|lia].
    apply Z.log2_lt_pow2; lia.
Qed.

(** Whatever the dividend, the rounded float quotient by a power of two is
    an integer that a float holds. *)
Lemma round_truediv_float_integer (x k q : Z) :
  0 <= k -> round_truediv x (2 ^ k) = inr q -> float_integer q.
Proof.
  intros Hk. unfold round_truediv, truediv.
  assert (Ht : 0 < 2 ^ k) by (apply Z.pow_pos_nonneg; lia).
  destruct (Z.eqb_spec (2 ^ k) 0) as [E|_]; [lia|].
  destruct (Z.eqb_spec x 0) as [->|Hx0].
  { intros H. injection H as <-. apply float_integer_small.
    vm_compute. discriminate. }
  set (a := Z.abs x). assert (Ha : 0 < a) by (unfold a; lia).
  rewrite (Z.abs_eq (2 ^ k)) by lia.
  rewrite (quotient_log2_pow2 a k Ha Hk).
  pose proof (Z.log2_spec a Ha) as Hl.
  pose proof (Z.log2_nonneg a) as Hl0.
  set (L := Z.log2 a) in *.
  set (e := Z.max (L - k - 52) (-1074)).
  unfold scaled. cbn [fst snd].
  set (u := Z.max 0 (- e)). set (w := Z.max 0 e).
  assert (Hu : 0 <= u) by (unfold u; lia).
  assert (Hw : 0 <= w) by (unfold w; lia).
  assert (Huw : w - u = e) by (unfold u, w; lia).
  set (d := 2 ^ k * 2 ^ w). set (n := a * 2 ^ u).
  assert (Hd : 0 < d).
  { unfold d. apply Z.mul_pos_pos; apply Z.pow_pos_nonneg; lia. }
  assert (Hd' : d = 2 ^ (k + w)) by (unfold d; rewrite Z.pow_add_r; lia).
  assert (H2u : 0 < 2 ^ u) by (apply Z.pow_pos_nonneg; lia).
  assert (Hupper : n < 2 ^ 53 * d).
  { rewrite Hd', <- Z.pow_add_r by lia.
    assert (n < 2 ^ Z.succ L * 2 ^ u)
      by (unfold n; apply Z.mul_lt_mono_pos_r; [exact H2u|lia]).
    rewrite <- Z.pow_add_r in H by lia.
    assert (2 ^ (Z.succ L + u) <= 2 ^ (53 + (k + w)))
      by (apply Z.pow_le_mono_r; unfold e in *; lia).
    lia. }
  set (m0 := round_half_even n d).
  assert (Hm0 : m0 <= 2 ^ 53)
    by (apply round_half_even_upper; assumption).
  assert (Hm0' : 0 <= m0).
  { apply round_half_even_lower; [exact Hd|]. unfold n. nia. }
  assert (Hs : Z.sgn (2 ^ k) = 1) by (apply Z.sgn_pos; exact Ht).
  rewrite Hs, Z.mul_1_r.
  destruct (Z.leb_spec (2 ^ 1024) (m0 * 2 ^ w)) as [_|Hno]; [discriminate|].
  intros H. injection H as <-. unfold round. cbn [mantissa exponent].
  fold u. fold w.
  destruct (Z.le_gt_cases e 0) as [He|He].
  - assert (w = 0) by (unfold w; lia). rewrite H.
    change (2 ^ 0) with 1. rewrite Z.mul_1_r.
    apply float_integer_small.
    pose proof (round_half_even_abs (Z.sgn x * m0) (2 ^ u) H2u).
    assert (Z.abs (Z.sgn x * m0) = m0) by nia.
    lia.
  - assert (Hwe : w = e) by (unfold w; lia).
    assert (Hu0 : u = 0) by (unfold u; lia).
    assert (Hee : e = L - k - 52) by (unfold e in *; lia).
    rewrite Hu0. change (2 ^ 0) with 1. rewrite round_half_even_one.
    assert (Hlow : 2 ^ 52 <= m0).
    { apply round_half_even_lower; [exact Hd|].
      rewrite Hd', <- Z.pow_add_r by lia.
      unfold n. rewrite Hu0. change (2 ^ 0) with 1. rewrite Z.mul_1_r.
      replace (52 + (k + w)) with L by lia. lia. }
    assert (H2w : 0 < 2 ^ w) by (apply Z.pow_pos_nonneg; lia).
    assert (Habs : Z.abs (Z.sgn x * m0 * 2 ^ w) = m0 * 2 ^ w) by nia.
    split; [rewrite Habs; exact Hno|]. right. rewrite Habs.
    rewrite Z.log2_mul_pow2 by lia.
    destruct (Z.eq_dec m0 (2 ^ 53)) as [E|E].
    + exists (2 ^ 52). rewrite E, Z.log2_pow2 by lia.
      replace (w + 53 - 52) with (1 + w) by lia.
      rewrite Z.pow_add_r by lia. change (2 ^ 53) with (2 ^ 52 * 2 ^ 1).
      ring.
    + exists m0. rewrite (Z.log2_unique m0 52) by (simpl Z.succ; lia).
      replace (w + 52 - 52) with w by lia. reflexivity.
Qed.

(** An integer that a float holds is the rounded float quotient of its
    multiple by a power of two. *)
Lemma round_truediv_stable (y k : Z) :
  0 <= k -> float_integer y ->
  round_truediv (2 ^ k * y) (2 ^ k) = inr y.
Proof.
  intros Hk [Hy Hrep]. unfold round_truediv, truediv.
  assert (Ht : 0 < 2 ^ k) by (apply Z.pow_pos_nonneg; lia).
  destruct (Z.eqb_spec (2 ^ k) 0) as [E|_]; [lia|].
  destruct (Z.eqb_spec (2 ^ k * y) 0) as [E|Hy0].
  { assert (y = 0) by nia. subst y. reflexivity. }
  assert (Hyn : y <> 0) by (intros ->; apply Hy0; ring).
  set (b := Z.abs y) in *. assert (Hb : 0 < b) by (unfold b; lia).
  rewrite (Z.abs_eq (2 ^ k)) by lia.
  replace (Z.abs (2 ^ k * y)) with (b * 2 ^ k) by (unfold b; nia).
  assert (Ha : 0 < b * 2 ^ k) by nia.
  rewrite (quotient_log2_pow2 _ k Ha Hk).
  rewrite Z.log2_mul_pow2 by lia.
  pose proof (Z.log2_spec b Hb) as Hl.
  pose proof (Z.log2_nonneg b) as Hl0.
  set (L := Z.log2 b) in *.
  replace (k + L - k - 52) with (L - 52) by lia.
  rewrite (Z.max_l (L - 52) (-1074)) by lia.
  unfold scaled. cbn [fst snd].
  assert (Hs : Z.sgn (2 ^ k * y) * Z.sgn (2 ^ k) = Z.sgn y).
  { rewrite Z.sgn_mul, (Z.sgn_pos (2 ^ k)) by exact Ht. ring. }
  rewrite Hs.
  destruct (Z.le_gt_cases L 52) as [HL|HL].
  - rewrite (Z.max_r 0 (- (L - 52))), (Z.max_l 0 (L - 52)) by lia.
    change (2 ^ 0) with 1. rewrite !Z.mul_1_r.
    replace (- (L - 52)) with (52 - L) by lia.
    set (c := 2 ^ (52 - L)).
    assert (Hc : 0 < c) by (apply Z.pow_pos_nonneg; lia).
    replace (b * 2 ^ k * c) with (2 ^ k * (b * c)) by ring.
    rewrite round_half_even_exact by exact Ht.
    assert (Hm : b * c < 2 ^ 53).
    { assert (b * c < 2 ^ Z.succ L * c)
        by (apply Z.mul_lt_mono_pos_r; [exact Hc|lia]).
      unfold c in H. rewrite <- Z.pow_add_r in H by lia.
      replace (Z.succ L + (52 - L)) with 53 in H by lia. exact H. }
    pose proof pow2_53_lt_1024.
    destruct (Z.leb_spec (2 ^ 1024) (b * c)) as [Ho|_]; [lia|].
    f_equal. unfold round. cbn [mantissa exponent].
    rewrite (Z.max_l 0 (L - 52)), (Z.max_r 0 (- (L - 52))) by lia.
    change (2 ^ 0) with 1. rewrite Z.mul_1_r.
    replace (- (L - 52)) with (52 - L) by lia. fold c.
    replace (Z.sgn y * (b * c)) with (c * (Z.sgn y * b)) by ring.
    rewrite round_half_even_exact by exact Hc.
    unfold b. lia.
  - destruct Hrep as [Hle|[c Hc]]; [lia|].
    rewrite (Z.max_l 0 (- (L - 52))), (Z.max_r 0 (L - 52)) by lia.
    change (2 ^ 0) with 1. rewrite !Z.mul_1_r.
    set (g := 2 ^ (L - 52)) in *.
    assert (Hg : 0 < g) by (apply Z.pow_pos_nonneg; lia).
    rewrite Hc.
    replace (c * g * 2 ^ k) with (2 ^ k * g * c) by ring.
    rewrite round_half_even_exact by nia.
    destruct (Z.leb_spec (2 ^ 1024) (c * g)) as [Ho|_]; [lia|].
    f_equal. unfold round. cbn [mantissa exponent].
    rewrite (Z.max_r 0 (L - 52)), (Z.max_l 0 (- (L - 52))) by lia.
    change (2 ^ 0) with 1. fold g. rewrite round_half_even_one.
    replace (Z.sgn y * c * g) with (Z.sgn y * (c * g)) by ring.
    rewrite <- Hc. unfold b. lia.
Qed.

(** A division that fails has a zero divisor or a quotient out of the
    range of floats. *)
Lemma round_truediv_error (x t : Z) (e : exn) :
  round_truediv x t = inl e ->
  (t = 0 /\ e = ZeroDivisionError) \/ (t <> 0 /\ e = OverflowError).
Proof.
  unfold round_truediv, truediv.
  destruct (Z.eqb_spec t 0) as [E|E].
  - intros H. injection H as <-. left. split; [exact E|reflexivity].
  - destruct (x =? 0); [discriminate|].
    destruct (2 ^ 1024 <=? _); [|discriminate].
    intros H. injection H as <-. right. split; [exact E|reflexivity].
Qed.

Lemma mod_pos (a t : Z) : 0 < t -> mod_ a t = Some (a mod t).
Proof.
  intros Ht. unfold mod_. destruct (Z.eqb_spec t 0); [lia|]. reflexivity.
Qed.

Lemma contains_In (x : Z) (l : list Z) : contains x l = true <-> In x l.
Proof.
  unfold contains. rewrite existsb_exists. split.
  - intros [y [Hy He]]. apply Z.eqb_eq in He. subst. exact Hy.
  - intros H. exists x. split; [exact H|apply Z.eqb_refl].
Qed.

End PyFacts.

(** ** Loops and outcomes *)

Lemma omap_omap {A B C : Type} (f : A -> B) (g : B -> C) (o : outcome A) :
  omap g (omap f o) = omap (fun a => g (f a)) o.
Proof. destruct o; reflexivity. Qed.

Lemma final_omap {A B : Type} (f : A -> B) (o : outcome A) :
  final (omap f o) = f (final o).
Proof. destruct o; reflexivity. Qed.

Lemma Forall2_refl {A : Type} (R : A -> A -> Prop) (l : list A) :
  (forall x, R x x) -> Forall2 R l l.
Proof. intros H. induction l; constructor; auto. Qed.

Section Loops.
Context {A : Type}.
Variable body : A -> outcome A.

(** A loop whose body always returns is a [map]. *)
Lemma for_each_map (f : A -> A) (l : list A) :
  (forall x, In x l -> body x = Return (f x)) ->
  for_each body l = Return (map f l).
Proof.
  induction l as [|x l IH]; intros Hb; [reflexivity|].
  simpl. rewrite (Hb x (or_introl eq_refl)).
  rewrite IH by (intros y Hy; apply Hb; right; exact Hy).
  reflexivity.
Qed.

(** Whatever the loop does, returning or raising, it leaves as many
    elements as it found, each related to the one it replaces. *)
Lemma for_each_final (R : A -> A -> Prop) (l : list A) :
  (forall x, R x x) ->
  (forall x, R x (final (body x))) ->
  Forall2 R l (final (for_each body l)).
Proof.
  intros Hrefl Hb. induction l as [|x l IH]; simpl; [constructor|].
  pose proof (Hb x) as Hx. destruct (body x) as [x'|e x']; simpl in *.
  - rewrite final_omap. constructor; assumption.
  - constructor; [exact Hx|]. apply Forall2_refl, Hrefl.
Qed.

(** A loop over elements on which the body returns the element as it
    is changes nothing. *)
Lemma for_each_unchanged (l : list A) :
  (forall x, In x l -> body x = Return x) ->
  for_each body l = Return l.
Proof.
  intros H. rewrite (for_each_map (fun x => x)) by exact H.
  rewrite map_id. reflexivity.
Qed.

End Loops.

Lemma set_time_same (m : Message) : set_time m (time m) = m.
Proof. destruct m; reflexivity. Qed.

Lemma is_note_set_time (m : Message) (t : Z) :
  is_note (set_time m t) = is_note m.
Proof. reflexivity. Qed.

Lemma is_note_set_note (m : Message) (n : Z) :
  is_note (set_note m n) = is_note m.
Proof. reflexivity. Qed.

(** ** The message loop of align *)

Section AlignMessages.
Import Py PyFacts.

Variable tick : Z.
Hypothesis tick_pos : 0 < tick.
Hypothesis tick_power : power_of_two tick.
Hypothesis tick_small : tick <= 2 ^ 52.

(** A carried shift within half a grid unit that is a multiple of the
    grid unit is zero. *)
Lemma small_multiple_zero (shift : Z) :
  2 * Z.abs shift <= tick -> shift mod tick = 0 -> shift = 0.
Proof.
  intros Hs Hm. pose proof (Z.div_mod shift tick ltac:(lia)) as H.
  rewrite Hm, Z.add_0_r in H. set (q := shift / tick) in *.
  destruct (Z.lt_trichotomy q 0) as [Hq|[Hq|Hq]]; nia.
Qed.

(** Within the range of exact floats, the quotient of line 49 is the exact
    one: a delta-time below [2 ^ 52] and a shift within half a grid unit
    add up to less than [2 ^ 53]. *)
Lemma round_truediv_original (time shift : Z) :
  Z.abs time < 2 ^ 52 -> 2 * Z.abs shift <= tick ->
  round_truediv (time + shift) tick
  = inr (round_half_even (time + shift) tick).
Proof.
  intros Ht Hs. apply round_truediv_grid; [exact tick_power|exact tick_small|].
  change (2 ^ 53) with (2 ^ 52 + 2 ^ 52). lia.
Qed.

(** On a proper grid and within the range of exact floats the loop
    returns: no division fails.  The note delta-times it leaves add up,
    with the final shift, to the delta-times it found plus the initial
    shift, and the shift stays within half a grid unit. *)
Lemma align_messages_returns (track : MidiTrack) : forall shift,
  Forall (fun m => Z.abs (time m) < 2 ^ 52) track ->
  2 * Z.abs shift <= tick ->
  exists track' shift',
    align_messages tick shift track = Return (track', shift') /\
    note_time_sum track + shift = note_time_sum track' + shift' /\
    2 * Z.abs shift' <= tick.
Proof.
  induction track as [|m rest IH]; intros shift Hb Hs; simpl.
  - exists [], shift. auto.
  - inversion Hb as [|? ? Hm Hrest]; subst.
    destruct (is_note m) eqn:Hn; simpl.
    + rewrite mod_pos by exact tick_pos.
      destruct (time m + shift mod tick =? 0); simpl.
      * destruct (IH shift Hrest Hs) as (tr' & s' & -> & Hsum & Hb').
        exists (m :: tr'), s'. simpl. rewrite Hn.
        repeat split; [lia|exact Hb'].
      * rewrite round_truediv_original by assumption.
        set (q := tick * round_half_even (time m + shift) tick).
        pose proof (round_half_even_error (time m + shift) tick tick_pos)
          as He.
        fold q in He.
        destruct (IH (time m + shift - q) Hrest He)
          as (tr' & s' & -> & Hsum & Hb').
        exists (set_time m q :: tr'), s'. simpl.
        rewrite is_note_set_time, Hn. simpl.
        repeat split; [lia|exact Hb'].
    + destruct (IH shift Hrest Hs) as (tr' & s' & -> & Hsum & Hb').
      exists (m :: tr'), s'. simpl. rewrite Hn.
      repeat split; [lia|exact Hb'].
Qed.

Lemma quantize_messages_on_grid (track : MidiTrack) : forall shift,
  on_grid tick (fst (quantize_messages tick shift track)).
Proof.
  unfold on_grid. induction track as [|m rest IH]; intros shift; simpl.
  - constructor.
  - destruct (is_note m) eqn:Hn; simpl; constructor; try apply IH.
    + intros _. simpl. rewrite Z.mul_comm. apply Z.mod_mul. lia.
    + rewrite Hn. discriminate.
Qed.

(** The code and the formula agree on a track of non-negative
    delta-times below [2 ^ 52], from any carried shift within half a grid
    unit: where the test of the code skips a message, the formula leaves it
    as it is, and the float quotient is the exact one. *)
Lemma align_messages_quantize (track : MidiTrack) : forall shift,
  Forall (fun m => 0 <= time m) track ->
  Forall (fun m => Z.abs (time m) < 2 ^ 52) track ->
  2 * Z.abs shift <= tick ->
  align_messages tick shift track
  = Return (quantize_messages tick shift track).
Proof.
  induction track as [|m rest IH]; intros shift Hpos Hb Hs; simpl.
  - reflexivity.
  - inversion Hpos as [|? ? Hm Hrest]; subst.
    inversion Hb as [|? ? Hbm Hbrest]; subst.
    destruct (is_note m) eqn:Hn; simpl.
    + rewrite mod_pos by exact tick_pos.
      pose proof (Z.mod_pos_bound shift tick tick_pos) as Hr.
      pose proof (round_half_even_error (time m + shift) tick tick_pos)
        as He.
      destruct (Z.eqb_spec (time m + shift mod tick) 0) as [E|E]; simpl.
      * assert (Ht : time m = 0) by lia.
        assert (H0 : shift = 0)
          by (apply small_multiple_zero; [exact Hs|lia]).
        subst shift. rewrite Ht. simpl (0 + 0).
        rewrite (round_half_even_multiple 0 tick tick_pos)
          by (apply Z.mod_0_l; lia).
        rewrite <- Ht at 2. rewrite set_time_same.
        rewrite IH by (first [exact Hrest | exact Hbrest | lia]).
        reflexivity.
      * rewrite round_truediv_original by assumption.
        rewrite IH by (first [exact Hrest | exact Hbrest | exact He]).
        reflexivity.
    + rewrite IH by assumption. reflexivity.
Qed.

(** The formula takes delta-times below [2 ^ 52] to delta-times below
    [2 ^ 53]: a grid point is within half a grid unit. *)
Lemma quantize_messages_range (track : MidiTrack) : forall shift,
  Forall (fun m => Z.abs (time m) < 2 ^ 52) track ->
  2 * Z.abs shift <= tick ->
  Forall (fun m => Z.abs (time m) < 2 ^ 53)
         (fst (quantize_messages tick shift track)).
Proof.
  induction track as [|m rest IH]; intros shift Hb Hs; simpl.
  - constructor.
  - inversion Hb as [|? ? Hbm Hbrest]; subst.
    pose proof (round_half_even_error (time m + shift) tick tick_pos) as He.
    destruct (is_note m); simpl; constructor.
    + simpl. change (2 ^ 53) with (2 ^ 52 + 2 ^ 52). lia.
    + apply IH; assumption.
    + change (2 ^ 53) with (2 ^ 52 + 2 ^ 52). lia.
    + apply IH; assumption.
Qed.

(** A track on the grid, with delta-times below [2 ^ 53], goes through
    the loop unchanged, and the shift stays zero. *)
Lemma align_messages_on_grid (track : MidiTrack) :
  Forall (fun m => Z.abs (time m) < 2 ^ 53) track ->
  on_grid tick track ->
  align_messages tick 0 track = Return (track, 0).
Proof.
  unfold on_grid. induction track as [|m rest IH]; intros Hb Hg; simpl.
  - reflexivity.
  - inversion Hg as [|? ? Hm Hrest]; subst.
    inversion Hb as [|? ? Hbm Hbrest]; subst.
    destruct (is_note m) eqn:Hn; simpl.
    + rewrite mod_pos by exact tick_pos. rewrite Z.mod_0_l by lia.
      destruct (Z.eqb_spec (time m + 0) 0) as [E|E]; simpl.
      * rewrite IH by assumption. reflexivity.
      * rewrite Z.add_0_r.
        rewrite (round_truediv_grid (time m) tick tick_power tick_small Hbm).
        rewrite (round_half_even_multiple (time m) tick tick_pos)
          by (apply Hm; reflexivity).
        rewrite set_time_same, Z.sub_diag.
        rewrite IH by assumption. reflexivity.
    + rewrite IH by assumption. reflexivity.
Qed.

End AlignMessages.

(** ** align *)

Lemma set_tracks_same (f : MidiFile) : set_tracks f (tracks f) = f.
Proof. destruct f; reflexivity. Qed.

Lemma Forall2_map_right {A : Type} (R : A -> A -> Prop) (f : A -> A)
  (l : list A) :
  (forall x, In x l -> R x (f x)) -> Forall2 R l (map f l).
Proof.
  induction l as [|x l IH]; intros H; simpl; constructor.
  - apply H. left. reflexivity.
  - apply IH. intros y Hy. apply H. right. exact Hy.
Qed.

(** Past its two tests, [align] is the loop over the tracks with the grid
    unit [ticks_per_beat // precision]. *)
Lemma align_grid (source : MidiFile) (precision : Z) :
  power_of_two (ticks_per_beat source) -> power_of_two precision ->
  align source precision
  = omap (set_tracks source)
         (for_each (align_track (ticks_per_beat source / precision))
                   (tracks source)).
Proof.
  intros Ht Hp. unfold align.
  rewrite (PyFacts.count_bin_power_of_two _ Ht).
  rewrite (PyFacts.count_bin_power_of_two _ Hp). simpl.
  apply PyFacts.power_of_two_pos in Hp.
  unfold Py.floordiv. destruct (Z.eqb_spec precision 0); [lia|reflexivity].
Qed.

(** The grid unit of a proper grid within the range of exact floats. *)
Lemma grid_unit (source : MidiFile) (precision : Z) :
  power_of_two (ticks_per_beat source) -> power_of_two precision ->
  precision <= ticks_per_beat source ->
  ticks_per_beat source <= 2 ^ 52 ->
  let tick := ticks_per_beat source / precision in
  0 < tick /\ power_of_two tick /\ tick <= 2 ^ 52.
Proof.
  intros Ht Hp Hle Hs tick. split; [|split].
  - apply PyFacts.tick_positive; assumption.
  - apply PyFacts.tick_power_of_two; assumption.
  - pose proof (PyFacts.power_of_two_pos _ Hp) as Hp0.
    pose proof (PyFacts.power_of_two_pos _ Ht) as Ht0.
    assert (tick <= ticks_per_beat source); [|lia].
    apply Z.div_le_upper_bound; [exact Hp0|nia].
Qed.

Lemma float_range_track (source : MidiFile) (track : MidiTrack) :
  float_range source -> In track (tracks source) ->
  Forall (fun m => Z.abs (time m) < 2 ^ 52) track.
Proof.
  intros [_ H] Hin. rewrite Forall_forall in H. apply H. exact Hin.
Qed.

(** On a proper grid, non-negative delta-times and within the range of
    exact floats, [align] returns the file quantized by the formula. *)
Lemma align_returns_quantized (source : MidiFile) (precision : Z) :
  power_of_two (ticks_per_beat source) -> power_of_two precision ->
  precision <= ticks_per_beat source ->
  nonneg_times source -> float_range source ->
  align source precision
  = Return (set_tracks source
              (map (quantize_track (ticks_per_beat source / precision))
                   (tracks source))).
Proof.
  intros Ht Hp Hle Hpos Hf. rewrite align_grid by assumption.
  destruct (grid_unit source precision Ht Hp Hle (proj1 Hf))
    as (Htick & Hpow & Hsmall).
  rewrite (for_each_map _
             (quantize_track (ticks_per_beat source / precision))).
  - reflexivity.
  - intros track Hin. unfold align_track, quantize_track.
    rewrite align_messages_quantize; try assumption; [reflexivity| | |lia].
    + unfold nonneg_times in Hpos. rewrite Forall_forall in Hpos.
      apply Hpos. exact Hin.
    + apply (float_range_track source); assumption.
Qed.

(** C1: on a grid of two powers of two with [precision <= ticks_per_beat],
    for a file with the non-negative delta-times of the data model and
    within the range of exact floats (every MIDI file is), [align] returns
    the file in which every track, on its own and from a shift of 0, has
    been put through the formula of the specification: each note message
    gets [tick * round((time + shift) / tick)], rounding half to even, and
    the shift becomes the rounding error.  A note message on the grid met
    with a zero shift is left as it is, by the formula and by the code, and
    the shift stays zero. *)
Theorem align_follows_formula (source : MidiFile) (precision : Z) :
  power_of_two (ticks_per_beat source) -> power_of_two precision ->
  precision <= ticks_per_beat source ->
  nonneg_times source -> float_range source ->
  let tick := ticks_per_beat source / precision in
  align source precision
  = Return (set_tracks source (map (quantize_track tick) (tracks source)))
  /\ (forall m rest, is_note m = true -> Z.abs (time m) < 2 ^ 52 ->
        time m mod tick = 0 ->
        quantize_messages tick 0 (m :: rest)
        = on_first (cons m) (quantize_messages tick 0 rest)
        /\ align_messages tick 0 (m :: rest)
           = omap (on_first (cons m)) (align_messages tick 0 rest)).
Proof.
  intros Ht Hp Hle Hpos Hf tick.
  destruct (grid_unit source precision Ht Hp Hle (proj1 Hf))
    as (Htick & Hpow & Hsmall). fold tick in Htick, Hpow, Hsmall.
  split; [apply align_returns_quantized; assumption|].
  intros m rest Hn Hb Hm. split.
  - simpl. rewrite Hn, Z.add_0_r.
    rewrite (PyFacts.round_half_even_multiple _ _ Htick Hm).
    rewrite set_time_same, Z.sub_diag. reflexivity.
  - simpl. rewrite Hn. simpl.
    rewrite PyFacts.mod_pos by exact Htick. rewrite Z.mod_0_l by lia.
    destruct (Z.eqb_spec (time m + 0) 0) as [E|E]; simpl; [reflexivity|].
    rewrite (round_truediv_original tick Hpow Hsmall)
      by (first [exact Hb | simpl; lia]).
    rewrite Z.add_0_r, (PyFacts.round_half_even_multiple _ _ Htick Hm).
    rewrite set_time_same, Z.sub_diag. reflexivity.
Qed.

Lemma align_follows_formula_witness :
  let s := mkMidiFile 8 [[mkMessage note_on 3 60 64; mkMessage other 5 0 0;
                          mkMessage note_off 6 60 64]] in
  align s 2
  = Return (mkMidiFile 8 [[mkMessage note_on 4 60 64; mkMessage other 5 0 0;
                           mkMessage note_off 4 60 64]]).
Proof.
  intros s.
  assert (H8 : power_of_two (ticks_per_beat s)) by (exists 3%nat; reflexivity).
  assert (H2 : power_of_two 2) by (exists 1%nat; reflexivity).
  assert (Hle : 2 <= ticks_per_beat s) by (simpl; lia).
  assert (Hpos : nonneg_times s)
    by (repeat (apply Forall_cons || apply Forall_nil); simpl; lia).
  assert (Hf : float_range s)
    by (split; [simpl; lia|];
        repeat (apply Forall_cons || apply Forall_nil); simpl; lia).
  destruct (align_follows_formula s 2 H8 H2 Hle Hpos Hf) as [H _].
  rewrite H. reflexivity.
Defined.

(** C2: on a grid of two powers of two with [precision <= ticks_per_beat],
    for a file within the range of exact floats (every MIDI file is),
    [align] returns; every track of the result is what the message loop
    makes of that track alone, started with a shift of 0; and for every
    track the note delta-times add up, after [align], to within one grid
    unit of what they added up to before. *)
Theorem align_bounded_drift (source : MidiFile) (precision : Z) :
  power_of_two (ticks_per_beat source) -> power_of_two precision ->
  precision <= ticks_per_beat source ->
  float_range source ->
  let tick := ticks_per_beat source / precision in
  exists source',
    align source precision = Return source' /\
    tracks source'
    = map (fun track => fst (final (align_messages tick 0 track)))
          (tracks source) /\
    Forall2 (fun track track' =>
               Z.abs (note_time_sum track - note_time_sum track') <= tick)
            (tracks source) (tracks source').
Proof.
  intros Ht Hp Hle Hf tick.
  destruct (grid_unit source precision Ht Hp Hle (proj1 Hf))
    as (Htick & Hpow & Hsmall). fold tick in Htick, Hpow, Hsmall.
  set (f := fun track => fst (final (align_messages tick 0 track))).
  exists (set_tracks source (map f (tracks source))).
  split; [|split].
  - rewrite align_grid by assumption. fold tick.
    rewrite (for_each_map _ f); [reflexivity|].
    intros track Hin. unfold align_track, f.
    destruct (align_messages_returns tick Htick Hpow Hsmall track 0
                (float_range_track source track Hf Hin) ltac:(simpl; lia))
      as (tr' & s' & -> & _). reflexivity.
  - reflexivity.
  - simpl. apply Forall2_map_right. intros track Hin. unfold f.
    destruct (align_messages_returns tick Htick Hpow Hsmall track 0
                (float_range_track source track Hf Hin) ltac:(simpl; lia))
      as (tr' & s' & -> & Hsum & Hb). simpl. lia.
Qed.

Lemma align_bounded_drift_witness :
  exists source',
    align (mkMidiFile 8 [[mkMessage note_on 3 60 64;
                          mkMessage note_off 6 60 64]]) 2
    = Return source' /\
    Forall2 (fun track track' =>
               Z.abs (note_time_sum track - note_time_sum track') <= 4)
            [[mkMessage note_on 3 60 64; mkMessage note_off 6 60 64]]
            (tracks source').
Proof.
  destruct (align_bounded_drift
              (mkMidiFile 8 [[mkMessage note_on 3 60 64;
                              mkMessage note_off 6 60 64]]) 2)
    as (s' & H & _ & Hd).
  - exists 3%nat. reflexivity.
  - exists 1%nat. reflexivity.
  - simpl. lia.
  - split; [simpl; lia|].
    repeat (apply Forall_cons || apply Forall_nil); simpl; lia.
  - exists s'. split; [exact H|exact Hd].
Defined.

(** *** A second pass *)

Lemma for_each_return_inv {A : Type} (body : A -> outcome A) (l l' : list A) :
  for_each body l = Return l' ->
  Forall2 (fun x x' => body x = Return x') l l'.
Proof.
  revert l'. induction l as [|x rest IH]; intros l' H; simpl in H.
  - injection H as <-. constructor.
  - destruct (body x) as [x'|e x'] eqn:Hx; [|discriminate].
    destruct (for_each body rest) as [r|e r] eqn:Hr; simpl in H;
      [|discriminate].
    injection H as <-. constructor; [exact Hx|]. apply IH. reflexivity.
Qed.

Lemma Forall2_in_right {A : Type} (R : A -> A -> Prop) (l l' : list A)
  (y : A) :
  Forall2 R l l' -> In y l' -> exists x, In x l /\ R x y.
Proof.
  intros H. induction H as [|x x' l l' Hx Hl IH]; intros Hin.
  - contradiction.
  - destruct Hin as [<-|Hin].
    + exists x. split; [left; reflexivity|exact Hx].
    + destruct (IH Hin) as (x0 & Hx0 & Hr).
      exists x0. split; [right; exact Hx0|exact Hr].
Qed.

Section SecondPass.
Import Py PyFacts.

Variable tick : Z.
Hypothesis tick_power : power_of_two tick.

Lemma tick_positive_power : 0 < tick.
Proof. apply power_of_two_pos. exact tick_power. Qed.

(** Whatever the delta-times and the shift, the loop that returns leaves
    every note message on the grid, at a multiple that a float holds: a
    note it re-times gets the grid unit times a rounded float, and a note
    it skips has a delta-time of 0. *)
Lemma align_messages_settles (track : MidiTrack) : forall shift r,
  Forall (fun m => 0 <= time m) track ->
  align_messages tick shift track = Return r ->
  on_float_grid tick (fst r).
Proof.
  pose proof tick_positive_power as Hpos.
  destruct tick_power as [k Hk].
  unfold on_float_grid.
  induction track as [|m rest IH]; intros shift r Hnn H; simpl in H.
  - injection H as <-. constructor.
  - pose proof (Forall_inv Hnn) as Hm. simpl in Hm.
    pose proof (Forall_inv_tail Hnn) as Hrest.
    assert (Hstep : forall m' s r',
              (is_note m' = true ->
               exists q, time m' = tick * q /\ float_integer q) ->
              omap (on_first (cons m')) (align_messages tick s rest)
              = Return r' ->
              Forall (fun m0 => is_note m0 = true ->
                        exists q, time m0 = tick * q /\ float_integer q)
                     (fst r')).
    { intros m' s r' Hm' H'.
      destruct (align_messages tick s rest) as [r0|e r0] eqn:Hr;
        simpl in H'; [|discriminate].
      injection H' as <-. simpl. constructor; [exact Hm'|].
      apply (IH s r0 Hrest Hr). }
    destruct (is_note m) eqn:Hn; simpl in H.
    + rewrite mod_pos in H by exact Hpos.
      pose proof (Z.mod_pos_bound shift tick Hpos) as Hr.
      destruct (Z.eqb_spec (time m + shift mod tick) 0) as [E|E];
        simpl in H.
      * apply (Hstep m shift r); [|exact H].
        intros _. exists 0. split; [lia|].
        apply float_integer_small. vm_compute. discriminate.
      * destruct (round_truediv (time m + shift) tick) as [e|q] eqn:Hq;
          [discriminate|].
        refine (Hstep _ _ r _ H).
        intros _. exists q. split; [reflexivity|].
        rewrite Hk in Hq.
        apply (round_truediv_float_integer (time m + shift) (Z.of_nat k) q
                 (Nat2Z.is_nonneg k) Hq).
    + apply (Hstep m shift r); [|exact H]. intros Hc. congruence.
Qed.

(** A track whose notes lie on the grid at multiples that a float holds
    goes through the loop unchanged, and the shift stays zero. *)
Lemma align_messages_settled (track : MidiTrack) :
  on_float_grid tick track ->
  align_messages tick 0 track = Return (track, 0).
Proof.
  pose proof tick_positive_power as Hpos.
  destruct tick_power as [k Hk].
  unfold on_float_grid.
  induction track as [|m rest IH]; intros Hg; simpl.
  - reflexivity.
  - pose proof (Forall_inv Hg) as Hm. simpl in Hm.
    pose proof (Forall_inv_tail Hg) as Hrest.
    destruct (is_note m) eqn:Hn; simpl.
    + rewrite mod_pos by exact Hpos. rewrite Z.mod_0_l by lia.
      destruct (Z.eqb_spec (time m + 0) 0) as [E|E]; simpl.
      * rewrite IH by exact Hrest. reflexivity.
      * destruct (Hm eq_refl) as (q & Hq & Hf).
        rewrite Z.add_0_r, Hq.
        pose proof (round_truediv_stable q (Z.of_nat k)
                      (Nat2Z.is_nonneg k) Hf) as Hst.
        rewrite <- Hk in Hst. rewrite Hst.
        rewrite <- Hq, set_time_same, Z.sub_diag.
        rewrite IH by exact Hrest. reflexivity.
    + rewrite IH by exact Hrest. reflexivity.
Qed.

Lemma on_float_grid_on_grid (track : MidiTrack) :
  on_float_grid tick track -> on_grid tick track.
Proof.
  pose proof tick_positive_power as Hpos.
  apply Forall_impl. intros m H Hn. destruct (H Hn) as (q & -> & _).
  rewrite Z.mul_comm. apply Z.mod_mul. lia.
Qed.

End SecondPass.

(** C10: on a grid of two powers of two with [precision <= ticks_per_beat]
    and for a file with the non-negative delta-times of the data model,
    the file a first [align] returns has all its note messages on the grid;
    on each of its tracks the message loop started with a shift of 0
    changes nothing and ends with a shift of 0; and [align] applied to it
    again returns it as it is.  This holds of every delta-time, however
    large; a first [align] does return on every file within the range of
    exact floats (every MIDI file is), and beyond it can only fail with the
    [OverflowError] of the float quotient. *)
Theorem align_idempotent (source : MidiFile) (precision : Z) :
  power_of_two (ticks_per_beat source) -> power_of_two precision ->
  precision <= ticks_per_beat source ->
  nonneg_times source ->
  let tick := ticks_per_beat source / precision in
  (forall source',
     align source precision = Return source' ->
     Forall (on_grid tick) (tracks source') /\
     (forall track, In track (tracks source') ->
        align_messages tick 0 track = Return (track, 0)) /\
     align source' precision = Return source') /\
  (float_range source ->
   exists source', align source precision = Return source').
Proof.
  intros Ht Hp Hle Hpos tick.
  pose proof (PyFacts.tick_power_of_two _ _ Ht Hp Hle) as Hpow.
  fold tick in Hpow.
  split.
  - intros source' H. rewrite align_grid in H by assumption. fold tick in H.
    destruct (for_each (align_track tick) (tracks source)) as [l|e l] eqn:Hl;
      simpl in H; [|discriminate].
    injection H as <-. simpl.
    apply for_each_return_inv in Hl.
    assert (Hset : forall track', In track' l -> on_float_grid tick track').
    { intros track' Hin.
      destruct (Forall2_in_right _ _ _ _ Hl Hin) as (track & Htr & Hb).
      unfold align_track in Hb.
      destruct (align_messages tick 0 track) as [r|e r] eqn:Hr; simpl in Hb;
        [|discriminate].
      injection Hb as <-.
      apply (align_messages_settles tick Hpow track 0 r); [|exact Hr].
      unfold nonneg_times in Hpos. rewrite Forall_forall in Hpos.
      apply Hpos. exact Htr. }
    assert (Hfix : forall track', In track' l ->
                     align_messages tick 0 track' = Return (track', 0)).
    { intros track' Hin. apply align_messages_settled; [exact Hpow|].
      apply Hset. exact Hin. }
    split; [|split].
    + apply Forall_forall. intros track' Hin.
      apply on_float_grid_on_grid; [exact Hpow|]. apply Hset. exact Hin.
    + exact Hfix.
    + rewrite align_grid by assumption. simpl. fold tick.
      rewrite for_each_unchanged; [reflexivity|].
      intros track' Hin. unfold align_track. rewrite Hfix by exact Hin.
      reflexivity.
  - intros Hf. eexists. apply align_returns_quantized; assumption.
Qed.

Lemma align_idempotent_witness :
  let s := mkMidiFile 8 [[mkMessage note_on 3 60 64; mkMessage other 5 0 0;
                          mkMessage note_off 6 60 64]] in
  let s' := mkMidiFile 8 [[mkMessage note_on 4 60 64; mkMessage other 5 0 0;
                           mkMessage note_off 4 60 64]] in
  align s 2 = Return s' /\ align s' 2 = Return s'.
Proof.
  intros s s'.
  assert (H8 : power_of_two (ticks_per_beat s)) by (exists 3%nat; reflexivity).
  assert (H2 : power_of_two 2) by (exists 1%nat; reflexivity).
  assert (Hle : 2 <= ticks_per_beat s) by (simpl; lia).
  assert (Hpos : nonneg_times s)
    by (repeat (apply Forall_cons || apply Forall_nil); simpl; lia).
  assert (H1 : align s 2 = Return s') by (vm_compute; reflexivity).
  destruct (align_idempotent s 2 H8 H2 Hle Hpos) as [Hidem _].
  destruct (Hidem s' H1) as (_ & _ & Hagain).
  split; [exact H1|exact Hagain].
Defined.

(** *** Beyond the range of exact floats *)

(** C1, as stated, fails beyond the range of exact floats: with
    [ticks_per_beat = 2] and a precision of 1, a note message of delta-time
    [2 ^ 54 + 2] lies on the grid and is met with a zero shift; the formula
    leaves it as it is, while the float quotient of line 49, [2 ^ 53 + 1],
    is rounded to [2 ^ 53]: the code sets the delta-time to [2 ^ 54] and
    carries a shift of 2. *)
Lemma align_formula_beyond_exact_floats :
  let m := mkMessage note_on (2 ^ 54 + 2) 60 64 in
  let s := mkMidiFile 2 [[m]] in
  power_of_two (ticks_per_beat s) /\ power_of_two 1 /\
  1 <= ticks_per_beat s /\ nonneg_times s /\
  time m mod (ticks_per_beat s / 1) = 0 /\
  quantize_track (ticks_per_beat s / 1) [m] = [m] /\
  align_messages (ticks_per_beat s / 1) 0 [m]
  = Return ([mkMessage note_on (2 ^ 54) 60 64], 2) /\
  align s 1 = Return (mkMidiFile 2 [[mkMessage note_on (2 ^ 54) 60 64]]).
Proof.
  intros m s.
  split; [exists 1%nat; reflexivity|].
  split; [exists 0%nat; reflexivity|].
  split; [vm_compute; discriminate|].
  split; [repeat (apply Forall_cons || apply Forall_nil);
          vm_compute; discriminate|].
  repeat split; vm_compute; reflexivity.
Qed.

(** C2, as stated, fails beyond the range of exact floats: with
    [ticks_per_beat = 2] and a precision of 1, a note message of delta-time
    [2 ^ 60 + 130] is set to [2 ^ 60 + 256], the float nearest to the
    quotient doubled: a drift of 126 on a grid unit of 2. *)
Lemma align_drift_beyond_exact_floats :
  let track := [mkMessage note_on (2 ^ 60 + 130) 60 64] in
  let track' := [mkMessage note_on (2 ^ 60 + 256) 60 64] in
  let s := mkMidiFile 2 [track] in
  power_of_two (ticks_per_beat s) /\ power_of_two 1 /\
  1 <= ticks_per_beat s /\
  ticks_per_beat s / 1 = 2 /\
  align s 1 = Return (mkMidiFile 2 [track']) /\
  Z.abs (note_time_sum track - note_time_sum track') = 126.
Proof.
  intros track track' s.
  split; [exists 1%nat; reflexivity|].
  split; [exists 0%nat; reflexivity|].
  split; [vm_compute; discriminate|].
  repeat split; vm_compute; reflexivity.
Qed.

(** Beyond the range of floats [align] can fail: with
    [ticks_per_beat = 8] and a precision of 2, notes of delta-times 3 and
    [2 ^ 1030 + 1] make it raise an [OverflowError] on the second quotient,
    the first note re-timed and the second left off the grid. *)
Lemma align_overflow_beyond_floats :
  let s := mkMidiFile 8 [[mkMessage note_on 3 60 64;
                          mkMessage note_off (2 ^ 1030 + 1) 60 64]] in
  power_of_two (ticks_per_beat s) /\ power_of_two 2 /\
  2 <= ticks_per_beat s /\ nonneg_times s /\
  align s 2
  = Raise Py.OverflowError
      (mkMidiFile 8 [[mkMessage note_on 4 60 64;
                      mkMessage note_off (2 ^ 1030 + 1) 60 64]]) /\
  (2 ^ 1030 + 1) mod (ticks_per_beat s / 2) <> 0 /\
  ~ (exists s', align s 2 = Return s').
Proof.
  intros s.
  assert (H : align s 2
              = Raise Py.OverflowError
                  (mkMidiFile 8 [[mkMessage note_on 4 60 64;
                                  mkMessage note_off (2 ^ 1030 + 1) 60 64]]))
    by (vm_compute; reflexivity).
  split; [exists 3%nat; reflexivity|].
  split; [exists 1%nat; reflexivity|].
  split; [vm_compute; discriminate|].
  split; [repeat (apply Forall_cons || apply Forall_nil);
          vm_compute; discriminate|].
  split; [exact H|].
  split; [vm_compute; discriminate|].
  intros [s' Hs]. rewrite H in Hs. discriminate Hs.
Qed.

(** *** A grid unit of zero *)

(** With a grid unit of 0 the message loop fails at the first note message,
    on [shift % tick], with nothing changed; a track without note messages
    goes through. *)
Lemma align_messages_zero_tick (track : MidiTrack) (shift : Z) :
  align_messages 0 shift track
  = if existsb is_note track
    then Raise Py.ZeroDivisionError (track, shift)
    else Return (track, shift).
Proof.
  induction track as [|m rest IH]; simpl; [reflexivity|].
  destruct (is_note m); simpl; [reflexivity|].
  rewrite IH. destruct (existsb is_note rest); reflexivity.
Qed.

Lemma for_each_align_track_zero_tick (trs : list MidiTrack) :
  for_each (align_track 0) trs
  = if existsb (existsb is_note) trs
    then Raise Py.ZeroDivisionError trs
    else Return trs.
Proof.
  induction trs as [|track rest IH]; simpl; [reflexivity|].
  unfold align_track at 1. rewrite align_messages_zero_tick.
  destruct (existsb is_note track); simpl; [reflexivity|].
  rewrite IH. destruct (existsb (existsb is_note) rest); reflexivity.
Qed.

(** C4, as the code has it: when [precision] exceeds [ticks_per_beat], both
    powers of two, the grid unit is 0 and no [ValueError] is raised.  A file
    with a note message makes [align] fail with a [ZeroDivisionError],
    before any message is changed; a file without one is returned as it
    is. *)
Theorem align_zero_tick (source : MidiFile) (precision : Z) :
  power_of_two (ticks_per_beat source) -> power_of_two precision ->
  ticks_per_beat source < precision ->
  ticks_per_beat source / precision = 0 /\
  align source precision
  = if has_note source
    then Raise Py.ZeroDivisionError source
    else Return source.
Proof.
  intros Ht Hp Hlt.
  pose proof (PyFacts.tick_zero _ _ Ht Hp Hlt) as H0.
  split; [exact H0|].
  rewrite align_grid by assumption. rewrite H0.
  rewrite for_each_align_track_zero_tick. unfold has_note.
  destruct (existsb (existsb is_note) (tracks source)); simpl;
    rewrite set_tracks_same; reflexivity.
Qed.

Lemma align_zero_tick_witness :
  let s := mkMidiFile 1 [[mkMessage other 5 0 0; mkMessage note_on 6 60 64]] in
  align s 2 = Raise Py.ZeroDivisionError s.
Proof.
  intros s.
  assert (H1 : power_of_two (ticks_per_beat s)) by (exists 0%nat; reflexivity).
  assert (H2 : power_of_two 2) by (exists 1%nat; reflexivity).
  assert (Hlt : ticks_per_beat s < 2) by (simpl; lia).
  destruct (align_zero_tick s 2 H1 H2 Hlt) as [_ H]. exact H.
Defined.

(** C4, as stated, fails: with [ticks_per_beat = 1] and [precision = 2], a
    file without note messages is returned, and no error is raised. *)
Lemma align_zero_tick_not_rejected :
  let s := mkMidiFile 1 [[mkMessage other 5 0 0]] in
  power_of_two (ticks_per_beat s) /\ power_of_two 2 /\
  ticks_per_beat s < 2 /\
  align s 2 = Return s /\
  ~ raises Py.ValueError (align s 2).
Proof.
  intros s. split; [exists 0%nat; reflexivity|].
  split; [exists 1%nat; reflexivity|].
  split; [simpl; lia|].
  split; [reflexivity|].
  intros [a H]. discriminate H.
Qed.

(** *** The two tests of the grid *)

(** A [ticks_per_beat] that is not negative and not a power of two is
    refused, whatever the precision, and nothing is changed. *)
Lemma align_rejects_ticks_per_beat (source : MidiFile) (precision : Z) :
  0 <= ticks_per_beat source -> ~ power_of_two (ticks_per_beat source) ->
  align source precision = Raise Py.ValueError source.
Proof.
  intros H0 H. unfold align.
  rewrite (PyFacts.count_bin_not_power_of_two _ H0 H). reflexivity.
Qed.

(** A precision that is not negative and not a power of two is refused,
    and nothing is changed. *)
Lemma align_rejects_precision (source : MidiFile) (precision : Z) :
  0 <= precision -> ~ power_of_two precision ->
  align source precision = Raise Py.ValueError source.
Proof.
  intros H0 H. unfold align.
  rewrite (PyFacts.count_bin_not_power_of_two _ H0 H).
  destruct (negb _); reflexivity.
Qed.

(** [align(s, 3)] fails for every file, and so does [align] on every file
    with [ticks_per_beat = 6]; the file is left as it was. *)
Lemma align_rejects_3_and_6 :
  (forall source, align source 3 = Raise Py.ValueError source) /\
  (forall trs precision,
     align (mkMidiFile 6 trs) precision
     = Raise Py.ValueError (mkMidiFile 6 trs)).
Proof.
  split.
  - intros source. unfold align. destruct (negb _); reflexivity.
  - intros trs precision. reflexivity.
Qed.

Lemma negative_not_power_of_two (n : Z) : n < 0 -> ~ power_of_two n.
Proof. intros Hn H. apply PyFacts.power_of_two_pos in H. lia. Qed.

(** The test counts the digits [1] of [bin(n)], and [bin] of a negative
    number differs from that of its absolute value only by the sign: the
    negative of a power of two passes. *)
Lemma align_negative_grid (source : MidiFile) (precision : Z) :
  power_of_two (ticks_per_beat source) -> power_of_two (- precision) ->
  align source precision
  = omap (set_tracks source)
         (for_each (align_track (ticks_per_beat source / precision))
                   (tracks source)).
Proof.
  intros Ht Hp. unfold align.
  rewrite (PyFacts.count_bin_power_of_two _ Ht).
  assert (Hc : (Py.count "1" (Py.bin precision) =? 1)%nat = true).
  { apply Nat.eqb_eq, PyFacts.count_bin_one.
    pose proof (PyFacts.power_of_two_pos _ Hp).
    replace (Z.abs precision) with (- precision) by lia. exact Hp. }
  rewrite Hc. simpl. apply PyFacts.power_of_two_pos in Hp.
  unfold Py.floordiv. destruct (Z.eqb_spec precision 0); [lia|reflexivity].
Qed.

(** C7 at a precision of -2, which is not a power of two: [align] raises
    nothing and quantizes on a grid unit of [4 // -2 = -2]. *)
Theorem align_accepts_negative_precision :
  ~ power_of_two (-2) /\
  align (mkMidiFile 4 [[mkMessage note_on 3 60 64]]) (-2)
  = Return (mkMidiFile 4 [[mkMessage note_on 4 60 64]]).
Proof.
  split; [apply negative_not_power_of_two; lia|reflexivity].
Qed.

(** ** The two while loops *)

Section WhileLoops.
Import Py PyFacts.

Variable notes : list Z.

Lemma contains_false (x : Z) : contains x notes = false <-> ~ In x notes.
Proof.
  rewrite <- contains_In. destruct (contains x notes); split; intros H;
    try reflexivity; try discriminate; try (intros K; discriminate).
  exfalso. apply H. reflexivity.
Qed.

(** The raising loop with the fuel [127 - n]: it stops at [r >= n] with
    its condition false, having passed only pitches outside [notes], and
    it does not leave 127 behind unless it started above. *)
Lemma while_raise_fuel_spec (fuel : nat) : forall n,
  fuel = Z.to_nat (127 - n) ->
  let r := while_raise_fuel fuel notes n in
  n <= r /\ (r < 127 -> In r notes) /\
  (forall k, n <= k < r -> ~ In k notes) /\
  (n <= 127 -> r <= 127) /\ (127 <= n -> r = n).
Proof.
  induction fuel as [|fuel IH]; intros n Hf; simpl.
  - repeat split; try lia.
  - destruct (Z.ltb_spec n 127) as [Hlt|Hge]; simpl; [|lia].
    destruct (contains n notes) eqn:Hc; simpl.
    + apply contains_In in Hc. repeat split; try lia. intros _. exact Hc.
    + apply contains_false in Hc.
      destruct (IH (n + 1) ltac:(lia)) as (H1 & H2 & H3 & H4 & H5).
      repeat split; try lia; try exact H2.
      intros k Hk. destruct (Z.eq_dec k n) as [->|Hne]; [exact Hc|].
      apply H3. lia.
Qed.

Lemma while_raise_spec (n : Z) :
  let r := while_raise notes n in
  n <= r /\ (r < 127 -> In r notes) /\
  (forall k, n <= k < r -> ~ In k notes) /\
  (n <= 127 -> r <= 127) /\ (127 <= n -> r = n).
Proof. apply while_raise_fuel_spec. reflexivity. Qed.

(** The loop condition is false where the raising loop stops: the fuel
    was enough. *)
Lemma while_raise_exit (n : Z) :
  let r := while_raise notes n in
  (r <? 127) && negb (contains r notes) = false.
Proof.
  destruct (while_raise_spec n) as (_ & H & _). simpl.
  destruct (Z.ltb_spec (while_raise notes n) 127) as [Hlt|Hge];
    [|reflexivity].
  simpl. apply negb_false_iff, contains_In, H. exact Hlt.
Qed.

Lemma while_lower_fuel_spec (fuel : nat) : forall n,
  fuel = Z.to_nat n ->
  let r := while_lower_fuel fuel notes n in
  r <= n /\ (0 < r -> In r notes) /\
  (forall k, r < k <= n -> ~ In k notes) /\
  (0 <= n -> 0 <= r) /\ (n <= 0 -> r = n).
Proof.
  induction fuel as [|fuel IH]; intros n Hf; simpl.
  - repeat split; try lia.
  - destruct (Z.ltb_spec 0 n) as [Hlt|Hge]; simpl; [|lia].
    destruct (contains n notes) eqn:Hc; simpl.
    + apply contains_In in Hc. repeat split; try lia. intros _. exact Hc.
    + apply contains_false in Hc.
      destruct (IH (n - 1) ltac:(lia)) as (H1 & H2 & H3 & H4 & H5).
      repeat split; try lia; try exact H2.
      intros k Hk. destruct (Z.eq_dec k n) as [->|Hne]; [exact Hc|].
      apply H3. lia.
Qed.

Lemma while_lower_spec (n : Z) :
  let r := while_lower notes n in
  r <= n /\ (0 < r -> In r notes) /\
  (forall k, r < k <= n -> ~ In k notes) /\
  (0 <= n -> 0 <= r) /\ (n <= 0 -> r = n).
Proof. apply while_lower_fuel_spec. reflexivity. Qed.

Lemma while_lower_exit (n : Z) :
  let r := while_lower notes n in
  (0 <? r) && negb (contains r notes) = false.
Proof.
  destruct (while_lower_spec n) as (_ & H & _). simpl.
  destruct (Z.ltb_spec 0 (while_lower notes n)) as [Hlt|Hge];
    [|reflexivity].
  simpl. apply negb_false_iff, contains_In, H. exact Hlt.
Qed.

(** A pitch of the key is left where it is by either loop. *)
Lemma while_raise_member (n : Z) : In n notes -> while_raise notes n = n.
Proof.
  intros Hin. destruct (while_raise_spec n) as (H1 & _ & H3 & _).
  destruct (Z.eq_dec (while_raise notes n) n) as [E|E]; [exact E|].
  exfalso. apply (H3 n); [lia|exact Hin].
Qed.

Lemma while_lower_member (n : Z) : In n notes -> while_lower notes n = n.
Proof.
  intros Hin. destruct (while_lower_spec n) as (H1 & _ & H3 & _).
  destruct (Z.eq_dec (while_lower notes n) n) as [E|E]; [exact E|].
  exfalso. apply (H3 n); [lia|exact Hin].
Qed.

Hypothesis notes_nonempty : notes <> [].
Hypothesis notes_in_range : in_range notes.

Lemma notes_bounds (a : Z) : In a notes -> 0 <= a <= 127.
Proof.
  unfold in_range in notes_in_range.
  rewrite Forall_forall in notes_in_range. apply notes_in_range.
Qed.

Lemma notes_member : exists a, In a notes.
Proof.
  revert notes_nonempty. clear. destruct notes as [|a rest]; intros H.
  - contradiction.
  - exists a. left. reflexivity.
Qed.

(** Descending from 127 or above, the lowering loop ends on a pitch of
    the key. *)
Lemma while_lower_from_top (n : Z) :
  127 <= n -> In (while_lower notes n) notes.
Proof.
  intros Hn. destruct (while_lower_spec n) as (H1 & H2 & H3 & H4 & _).
  destruct (Z.ltb_spec 0 (while_lower notes n)) as [Hlt|Hge];
    [apply H2; exact Hlt|].
  destruct notes_member as [a Ha].
  pose proof (notes_bounds a Ha) as Hb.
  destruct (Z.eq_dec a (while_lower notes n)) as [<-|Hne]; [exact Ha|].
  exfalso. apply (H3 a); [lia|exact Ha].
Qed.

(** Ascending from 0 or below, the raising loop ends on a pitch of the
    key. *)
Lemma while_raise_from_bottom (n : Z) :
  n <= 0 -> In (while_raise notes n) notes.
Proof.
  intros Hn. destruct (while_raise_spec n) as (H1 & H2 & H3 & H4 & _).
  destruct (Z.ltb_spec (while_raise notes n) 127) as [Hlt|Hge];
    [apply H2; exact Hlt|].
  destruct notes_member as [a Ha].
  pose proof (notes_bounds a Ha) as Hb.
  destruct (Z.eq_dec a (while_raise notes n)) as [<-|Hne]; [exact Ha|].
  exfalso. apply (H3 a); [lia|exact Ha].
Qed.

(** [shift_up] and [shift_down] end on a pitch of the key, whatever the
    pitch they start from. *)
Lemma shift_up_note_member (n : Z) : In (shift_up_note notes n) notes.
Proof.
  unfold shift_up_note.
  destruct (while_raise_spec n) as (H1 & H2 & H3 & H4 & H5).
  destruct (Z.ltb_spec (while_raise notes n) 127) as [Hlt|Hge].
  - rewrite while_lower_member; apply H2; exact Hlt.
  - apply while_lower_from_top. exact Hge.
Qed.

Lemma shift_down_note_member (n : Z) : In (shift_down_note notes n) notes.
Proof.
  unfold shift_down_note.
  destruct (while_lower_spec n) as (H1 & H2 & H3 & H4 & H5).
  destruct (Z.ltb_spec 0 (while_lower notes n)) as [Hlt|Hge].
  - rewrite while_raise_member; apply H2; exact Hlt.
  - apply while_raise_from_bottom. exact Hge.
Qed.

End WhileLoops.

(** ** Direction of shift_up and shift_down *)

Section Direction.
Variable notes : list Z.
Hypothesis notes_nonempty : notes <> [].
Hypothesis notes_in_range : in_range notes.

Lemma shift_up_note_above (n : Z) :
  (exists a, In a notes /\ n <= a) ->
  smallest_at_or_above notes n (shift_up_note notes n).
Proof.
  intros (a & Ha & Hna). unfold shift_up_note.
  pose proof (notes_bounds notes notes_in_range a Ha) as Hb.
  destruct (while_raise_spec notes n) as (H1 & H2 & H3 & H4 & H5).
  assert (Hin : In (while_raise notes n) notes).
  { destruct (Z.ltb_spec (while_raise notes n) 127) as [Hlt|Hge];
      [apply H2; exact Hlt|].
    destruct (Z.eq_dec a (while_raise notes n)) as [<-|Hne]; [exact Ha|].
    exfalso. apply (H3 a); [lia|exact Ha]. }
  rewrite while_lower_member by exact Hin.
  split; [exact Hin|]. split; [exact H1|].
  intros b Hb' Hnb.
  destruct (Z.le_gt_cases (while_raise notes n) b) as [Hle|Hgt];
    [exact Hle|].
  exfalso. apply (H3 b); [lia|exact Hb'].
Qed.

Lemma shift_up_note_below (n : Z) :
  (forall a, In a notes -> a < n) ->
  largest_at_or_below notes n (shift_up_note notes n).
Proof.
  intros Hnone.
  pose proof (shift_up_note_member notes notes_nonempty notes_in_range n)
    as Hin.
  split; [exact Hin|]. split; [specialize (Hnone _ Hin); lia|].
  intros b Hb _. unfold shift_up_note in *.
  destruct (while_raise_spec notes n) as (H1 & H2 & H3 & H4 & H5).
  assert (Htop : 127 <= while_raise notes n).
  { destruct (Z.ltb_spec (while_raise notes n) 127) as [Hlt|Hge];
      [|exact Hge].
    specialize (Hnone _ (H2 Hlt)). lia. }
  destruct (while_lower_spec notes (while_raise notes n))
    as (L1 & L2 & L3 & L4 & L5).
  pose proof (notes_bounds notes notes_in_range b Hb) as Hbb.
  destruct (Z.le_gt_cases b (while_lower notes (while_raise notes n)))
    as [Hle|Hgt]; [exact Hle|].
  exfalso. apply (L3 b); [lia|exact Hb].
Qed.

Lemma shift_down_note_below (n : Z) :
  (exists a, In a notes /\ a <= n) ->
  largest_at_or_below notes n (shift_down_note notes n).
Proof.
  intros (a & Ha & Hna). unfold shift_down_note.
  pose proof (notes_bounds notes notes_in_range a Ha) as Hb.
  destruct (while_lower_spec notes n) as (H1 & H2 & H3 & H4 & H5).
  assert (Hin : In (while_lower notes n) notes).
  { destruct (Z.ltb_spec 0 (while_lower notes n)) as [Hlt|Hge];
      [apply H2; exact Hlt|].
    destruct (Z.eq_dec a (while_lower notes n)) as [<-|Hne]; [exact Ha|].
    exfalso. apply (H3 a); [lia|exact Ha]. }
  rewrite while_raise_member by exact Hin.
  split; [exact Hin|]. split; [exact H1|].
  intros b Hb' Hnb.
  destruct (Z.le_gt_cases b (while_lower notes n)) as [Hle|Hgt];
    [exact Hle|].
  exfalso. apply (H3 b); [lia|exact Hb'].
Qed.

Lemma shift_down_note_above (n : Z) :
  (forall a, In a notes -> n < a) ->
  smallest_at_or_above notes n (shift_down_note notes n).
Proof.
  intros Hnone.
  pose proof (shift_down_note_member notes notes_nonempty notes_in_range n)
    as Hin.
  split; [exact Hin|]. split; [specialize (Hnone _ Hin); lia|].
  intros b Hb _. unfold shift_down_note in *.
  destruct (while_lower_spec notes n) as (H1 & H2 & H3 & H4 & H5).
  assert (Hbot : while_lower notes n <= 0).
  { destruct (Z.ltb_spec 0 (while_lower notes n)) as [Hlt|Hge];
      [|exact Hge].
    specialize (Hnone _ (H2 Hlt)). lia. }
  destruct (while_raise_spec notes (while_lower notes n))
    as (L1 & L2 & L3 & L4 & L5).
  pose proof (notes_bounds notes notes_in_range b Hb) as Hbb.
  destruct (Z.le_gt_cases (while_raise notes (while_lower notes n)) b)
    as [Hle|Hgt]; [exact Hle|].
  exfalso. apply (L3 b); [lia|exact Hb].
Qed.

End Direction.

(** ** min with a key *)

Lemma min_scan_first (k : Z -> Z) (l : list Z) : forall best,
  let r := Py.min_scan k best l in
  (r = best /\ forall a, In a l -> k best <= k a) \/
  (exists before after,
     l = before ++ r :: after /\ k r < k best /\
     (forall a, In a before -> k r < k a) /\
     (forall a, In a after -> k r <= k a)).
Proof.
  induction l as [|x rest IH]; intros best; simpl.
  - left. split; [reflexivity|]. intros a [].
  - destruct (Z.ltb_spec (k x) (k best)) as [Hlt|Hge].
    + destruct (IH x) as [[Hr Hmin]|(before & after & Hl & Hk & Hb & Ha)].
      * right. exists [], rest. simpl. rewrite Hr.
        repeat split; try assumption. intros a [].
      * right. exists (x :: before), after. simpl. rewrite Hl at 1.
        repeat split; try assumption; [lia|].
        intros a [<-|Hin]; [exact Hk|apply Hb; exact Hin].
    + destruct (IH best) as [[Hr Hmin]|(before & after & Hl & Hk & Hb & Ha)].
      * left. split; [exact Hr|].
        intros a [<-|Hin]; [exact Hge|apply Hmin; exact Hin].
      * right. exists (x :: before), after. simpl. rewrite Hl at 1.
        repeat split; try assumption.
        intros a [<-|Hin]; [lia|apply Hb; exact Hin].
Qed.

(** [nearest] on a key with a pitch in it: the first of the pitches at the
    least distance. *)
Lemma nearest_first (notes : list Z) (n : Z) :
  notes <> [] ->
  exists r, nearest notes n = Some r /\ first_nearest notes n r.
Proof.
  intros Hne. destruct notes as [|x rest]; [contradiction|].
  unfold nearest. simpl. eexists. split; [reflexivity|].
  set (k := fun y => Z.abs (y - n)).
  destruct (min_scan_first k rest x)
    as [[Hr Hmin]|(before & after & Hl & Hk & Hb & Ha)].
  - exists [], rest. simpl. rewrite Hr.
    repeat split; [intros a []|exact Hmin].
  - exists (x :: before), after. simpl. rewrite Hl at 1.
    repeat split; [|exact Ha].
    intros a [<-|Hin]; [exact Hk|apply Hb; exact Hin].
Qed.

Lemma first_nearest_member (notes : list Z) (n r : Z) :
  first_nearest notes n r -> In r notes.
Proof.
  intros (before & after & -> & _). apply in_or_app. right. left. reflexivity.
Qed.

(** ** The strategies on a track *)

Lemma shift_up_returns (track : MidiTrack) (notes : list Z) :
  shift_up track notes = Return (map (shift_up_result notes) track).
Proof.
  unfold shift_up. apply for_each_map. intros m _.
  unfold shift_up_message, shift_up_result. destruct (is_note m); reflexivity.
Qed.

Lemma shift_down_returns (track : MidiTrack) (notes : list Z) :
  shift_down track notes = Return (map (shift_down_result notes) track).
Proof.
  unfold shift_down. apply for_each_map. intros m _.
  unfold shift_down_message, shift_down_result.
  destruct (is_note m); reflexivity.
Qed.

Lemma shift_nearest_returns (track : MidiTrack) (notes : list Z) :
  notes <> [] ->
  shift_nearest track notes = Return (map (shift_nearest_result notes) track).
Proof.
  intros Hne. unfold shift_nearest. apply for_each_map. intros m _.
  unfold shift_nearest_message, shift_nearest_result.
  destruct (is_note m); [|reflexivity].
  destruct (nearest_first notes (note m) Hne) as (r & -> & _). reflexivity.
Qed.

(** ** correct_pitch *)

Lemma correct_pitch_map (R : KeyResolver) (source : MidiFile) (key : Key R)
  (strategy : Strategy) (f : Message -> Message) :
  (forall track, strategy track (key_pitches R key) = Return (map f track)) ->
  correct_pitch R source key strategy
  = Return (set_tracks source (map (map f) (tracks source))).
Proof.
  intros H. unfold correct_pitch.
  rewrite (for_each_map _ (map f)) by (intros track _; apply H).
  reflexivity.
Qed.

Lemma Forall_map_map (P : Message -> Prop) (f : Message -> Message)
  (trs : list MidiTrack) :
  (forall m, P (f m)) -> Forall (Forall P) (map (map f) trs).
Proof.
  intros H. apply Forall_forall. intros track Hin.
  apply in_map_iff in Hin. destruct Hin as (tr & <- & _).
  apply Forall_forall. intros m Hm.
  apply in_map_iff in Hm. destruct Hm as (m0 & <- & _). apply H.
Qed.

(** C6: on a key with at least one pitch, all in 0-127, [shift_up] returns
    and leaves on a note message the smallest pitch of the key at or above
    the one it had, when the key has one, and the largest pitch of the key
    below it when the key has none at or above; [shift_down] returns and
    leaves the largest pitch of the key at or below, when there is one, and
    the smallest above when there is none. *)
Theorem shift_up_down_direction (track : MidiTrack) (notes : list Z)
  (i : nat) (m : Message) :
  notes <> [] -> in_range notes ->
  nth_error track i = Some m -> is_note m = true ->
  0 <= note m <= 127 ->
  (exists track' m',
     shift_up track notes = Return track' /\
     nth_error track' i = Some m' /\
     ((exists a, In a notes /\ note m <= a) ->
      smallest_at_or_above notes (note m) (note m')) /\
     ((forall a, In a notes -> a < note m) ->
      largest_at_or_below notes (note m) (note m')))
  /\
  (exists track' m',
     shift_down track notes = Return track' /\
     nth_error track' i = Some m' /\
     ((exists a, In a notes /\ a <= note m) ->
      largest_at_or_below notes (note m) (note m')) /\
     ((forall a, In a notes -> note m < a) ->
      smallest_at_or_above notes (note m) (note m'))).
Proof.
  intros Hne Hr Hi Hn _. split.
  - exists (map (shift_up_result notes) track), (shift_up_result notes m).
    split; [apply shift_up_returns|].
    split; [apply map_nth_error; exact Hi|].
    unfold shift_up_result. rewrite Hn. simpl. split.
    + apply shift_up_note_above; assumption.
    + apply shift_up_note_below; assumption.
  - exists (map (shift_down_result notes) track), (shift_down_result notes m).
    split; [apply shift_down_returns|].
    split; [apply map_nth_error; exact Hi|].
    unfold shift_down_result. rewrite Hn. simpl. split.
    + apply shift_down_note_below; assumption.
    + apply shift_down_note_above; assumption.
Qed.

Lemma shift_up_down_direction_witness :
  let m := mkMessage note_on 0 2 64 in
  (exists track' m',
     shift_up [m] [0; 4; 7] = Return track' /\
     nth_error track' 0 = Some m' /\
     smallest_at_or_above [0; 4; 7] 2 (note m'))
  /\
  (exists track' m',
     shift_down [m] [0; 4; 7] = Return track' /\
     nth_error track' 0 = Some m' /\
     largest_at_or_below [0; 4; 7] 2 (note m')).
Proof.
  intros m.
  destruct (shift_up_down_direction [m] [0; 4; 7] 0 m)
    as [(tu & mu & Hu & Hiu & Habove & _) (td & md & Hd & Hid & Hbelow & _)].
  - discriminate.
  - repeat constructor; simpl; lia.
  - reflexivity.
  - reflexivity.
  - simpl. lia.
  - split.
    + exists tu, mu. repeat split; try assumption.
      all: apply Habove; exists 4; simpl; split; [tauto|lia].
    + exists td, md. repeat split; try assumption.
      all: apply Hbelow; exists 0; simpl; split; [tauto|lia].
Defined.

(** C8: on a key with at least one pitch, [shift_nearest] returns and
    leaves on a note message a pitch of the key at the least distance from
    the one it had; of several pitches at that distance, it is the one that
    comes first in the list of the key. *)
Theorem shift_nearest_first (track : MidiTrack) (notes : list Z)
  (i : nat) (m : Message) :
  notes <> [] ->
  nth_error track i = Some m -> is_note m = true ->
  exists track' m',
    shift_nearest track notes = Return track' /\
    nth_error track' i = Some m' /\
    first_nearest notes (note m) (note m').
Proof.
  intros Hne Hi Hn.
  exists (map (shift_nearest_result notes) track),
         (shift_nearest_result notes m).
  split; [apply shift_nearest_returns; exact Hne|].
  split; [apply map_nth_error; exact Hi|].
  unfold shift_nearest_result. rewrite Hn.
  destruct (nearest_first notes (note m) Hne) as (r & -> & Hf). exact Hf.
Qed.

Lemma shift_nearest_first_witness :
  exists track' m',
    shift_nearest [mkMessage note_on 0 2 64] [4; 0; 7] = Return track' /\
    nth_error track' 0 = Some m' /\
    first_nearest [4; 0; 7] 2 (note m').
Proof.
  apply (shift_nearest_first [mkMessage note_on 0 2 64] [4; 0; 7] 0
           (mkMessage note_on 0 2 64)).
  - discriminate.
  - reflexivity.
  - reflexivity.
Defined.

(** *** A key without pitches *)

(** A loop whose body raises on the elements that satisfy [p], leaving
    them as they are, and returns the others as they are: it raises at the
    first such element, with nothing changed. *)
Lemma for_each_guard {A : Type} (body : A -> outcome A) (p : A -> bool)
  (e : Py.exn) (l : list A) :
  (forall x, body x = if p x then Raise e x else Return x) ->
  for_each body l = if existsb p l then Raise e l else Return l.
Proof.
  intros Hb. induction l as [|x rest IH]; simpl; [reflexivity|].
  rewrite Hb. destruct (p x); simpl; [reflexivity|].
  rewrite IH. destruct (existsb p rest); reflexivity.
Qed.

Lemma shift_up_note_empty (n : Z) : shift_up_note [] n = 0.
Proof.
  unfold shift_up_note.
  destruct (while_raise_spec [] n) as (H1 & H2 & _).
  destruct (while_lower_spec [] (while_raise [] n)) as (L1 & L2 & _ & L4 & _).
  destruct (Z.ltb_spec (while_raise [] n) 127) as [Hlt|Hge];
    [destruct (H2 Hlt)|].
  destruct (Z.ltb_spec 0 (while_lower [] (while_raise [] n))) as [Hl|Hg];
    [destruct (L2 Hl)|].
  lia.
Qed.

Lemma shift_down_note_empty (n : Z) : shift_down_note [] n = 127.
Proof.
  unfold shift_down_note.
  destruct (while_lower_spec [] n) as (H1 & H2 & _).
  destruct (while_raise_spec [] (while_lower [] n)) as (L1 & L2 & _ & L4 & _).
  destruct (Z.ltb_spec 0 (while_lower [] n)) as [Hlt|Hge];
    [destruct (H2 Hlt)|].
  destruct (Z.ltb_spec (while_raise [] (while_lower [] n)) 127) as [Hl|Hg];
    [destruct (L2 Hl)|].
  lia.
Qed.

Lemma shift_nearest_empty (track : MidiTrack) :
  shift_nearest track []
  = if existsb is_note track
    then Raise Py.ValueError track
    else Return track.
Proof.
  unfold shift_nearest. apply for_each_guard. intros m.
  unfold shift_nearest_message. destruct (is_note m); reflexivity.
Qed.

(** C5, as the code has it: nothing tests that the key has a pitch.  With
    an empty key [shift_up] and [shift_down] raise nothing and run every
    note message to an end of the range, 0 for [shift_up] and 127 for
    [shift_down]; [shift_nearest] fails in [min], with a [ValueError] and
    before any message is changed, when the file has a note message, and
    returns the file as it is when it has none. *)
Theorem correct_pitch_empty_key (R : KeyResolver) (source : MidiFile)
  (key : Key R) :
  key_pitches R key = [] ->
  correct_pitch R source key shift_up
  = Return (set_tracks source (map (map (with_pitch 0)) (tracks source)))
  /\
  correct_pitch R source key shift_down
  = Return (set_tracks source (map (map (with_pitch 127)) (tracks source)))
  /\
  correct_pitch R source key shift_nearest
  = if has_note source
    then Raise Py.ValueError source
    else Return source.
Proof.
  intros He. split; [|split].
  - apply correct_pitch_map. intros track. rewrite He, shift_up_returns.
    f_equal. apply map_ext. intros m.
    unfold shift_up_result, with_pitch. rewrite shift_up_note_empty.
    reflexivity.
  - apply correct_pitch_map. intros track. rewrite He, shift_down_returns.
    f_equal. apply map_ext. intros m.
    unfold shift_down_result, with_pitch. rewrite shift_down_note_empty.
    reflexivity.
  - unfold correct_pitch. rewrite He.
    rewrite (for_each_guard _ (existsb is_note) Py.ValueError)
      by (intros track; apply shift_nearest_empty).
    unfold has_note. destruct (existsb (existsb is_note) (tracks source));
      simpl; rewrite set_tracks_same; reflexivity.
Qed.

Lemma correct_pitch_empty_key_witness :
  let s := mkMidiFile 8 [[mkMessage other 1 0 0];
                         [mkMessage note_on 0 60 64]] in
  correct_pitch plain_keys s [] shift_down
  = Return (mkMidiFile 8 [[mkMessage other 1 0 0];
                          [mkMessage note_on 0 127 64]])
  /\ correct_pitch plain_keys s [] shift_nearest = Raise Py.ValueError s.
Proof.
  intros s.
  destruct (correct_pitch_empty_key plain_keys s [] eq_refl)
    as (_ & Hd & Hn).
  split; [exact Hd|exact Hn].
Defined.

(** C5, as stated, fails: with an empty key, [shift_up] on a file with one
    note message of pitch 60 raises nothing and sets the pitch to 0. *)
Lemma correct_pitch_empty_key_not_rejected :
  let s := mkMidiFile 8 [[mkMessage note_on 0 60 64]] in
  key_pitches plain_keys [] = [] /\
  correct_pitch plain_keys s [] shift_up
  = Return (mkMidiFile 8 [[mkMessage note_on 0 0 64]]) /\
  (forall e, ~ raises e (correct_pitch plain_keys s [] shift_up)).
Proof.
  intros s. split; [reflexivity|]. split; [reflexivity|].
  intros e [a H]. discriminate H.
Qed.

(** ** What the transforms leave alone *)

Lemma same_but_time_refl (m : Message) : same_but_time m m.
Proof. repeat split. Qed.

Lemma same_but_note_refl (m : Message) : same_but_note m m.
Proof. repeat split. Qed.

Lemma same_but_time_set_time (m : Message) (t : Z) :
  is_note m = true -> same_but_time m (set_time m t).
Proof. intros H. repeat split. congruence. Qed.

Lemma same_but_note_set_note (m : Message) (n : Z) :
  is_note m = true -> same_but_note m (set_note m n).
Proof. intros H. repeat split. congruence. Qed.

Lemma Forall2_cons_on_first (R : Message -> Message -> Prop)
  (m m' : Message) (track : MidiTrack) (o : outcome (MidiTrack * Z)) :
  R m m' -> Forall2 R track (fst (final o)) ->
  Forall2 R (m :: track) (fst (final (omap (on_first (cons m')) o))).
Proof.
  intros Hm Ht. rewrite final_omap. simpl. constructor; assumption.
Qed.

(** The message loop of [align], for any grid unit and shift and whether
    it returns or raises, keeps the messages in place and changes at most
    the delta-time of note messages. *)
Lemma align_messages_frame (tick : Z) (track : MidiTrack) : forall shift,
  Forall2 same_but_time track (fst (final (align_messages tick shift track))).
Proof.
  induction track as [|m rest IH]; intros shift; simpl; [constructor|].
  destruct (is_note m) eqn:Hn; simpl.
  - destruct (Py.mod_ shift tick) as [r|]; simpl;
      [|apply Forall2_refl, same_but_time_refl].
    destruct (time m + r =? 0); simpl.
    + apply Forall2_cons_on_first; [apply same_but_time_refl|apply IH].
    + destruct (Py.round_truediv (time m + shift) tick) as [e|q]; simpl;
        [apply Forall2_refl, same_but_time_refl|].
      apply Forall2_cons_on_first; [|apply IH].
      apply same_but_time_set_time. exact Hn.
  - apply Forall2_cons_on_first; [apply same_but_time_refl|apply IH].
Qed.

(** Messages that are not notes take no part in the carry: the loop does
    to the note messages of a track what it does to them with the other
    messages taken out. *)
Lemma align_messages_notes_only (tick : Z) (track : MidiTrack) :
  forall shift,
  omap (on_first (filter is_note)) (align_messages tick shift track)
  = align_messages tick shift (filter is_note track).
Proof.
  induction track as [|m rest IH]; intros shift; simpl; [reflexivity|].
  assert (Hstep : forall m' s,
            is_note m' = true ->
            omap (on_first (filter is_note))
                 (omap (on_first (cons m')) (align_messages tick s rest))
            = omap (on_first (cons m'))
                   (align_messages tick s (filter is_note rest))).
  { intros m' s Hm'. rewrite <- IH, !omap_omap.
    destruct (align_messages tick s rest);
      unfold on_first; simpl; rewrite Hm'; reflexivity. }
  destruct (is_note m) eqn:Hn; simpl; rewrite ?Hn; simpl.
  - destruct (Py.mod_ shift tick) as [r|]; simpl;
      [|unfold on_first; simpl; rewrite Hn; reflexivity].
    destruct (time m + r =? 0); simpl.
    + apply Hstep. exact Hn.
    + destruct (Py.round_truediv (time m + shift) tick) as [e|q]; simpl;
        [unfold on_first; simpl; rewrite Hn; reflexivity|].
      apply Hstep. exact Hn.
  - rewrite <- IH, !omap_omap. destruct (align_messages tick shift rest);
      unfold on_first; simpl; rewrite Hn; reflexivity.
Qed.

Lemma align_frame (source : MidiFile) (precision : Z) :
  same_layout same_but_time source (final (align source precision)).
Proof.
  assert (Hrefl : same_layout same_but_time source source).
  { split; [reflexivity|].
    apply Forall2_refl. intros tr. apply Forall2_refl, same_but_time_refl. }
  unfold align.
  destruct (negb _); [exact Hrefl|].
  destruct (negb _); [exact Hrefl|].
  destruct (Py.floordiv _ _) as [tick|]; [|exact Hrefl].
  rewrite final_omap. split; [reflexivity|]. simpl.
  apply for_each_final.
  - intros tr. apply Forall2_refl, same_but_time_refl.
  - intros tr. unfold align_track. rewrite final_omap.
    apply align_messages_frame.
Qed.

Lemma strategy_frame (R : KeyResolver) (source : MidiFile) (key : Key R)
  (body : list Z -> Message -> outcome Message) :
  (forall notes m, same_but_note m (final (body notes m))) ->
  same_layout same_but_note source
    (final (correct_pitch R source key
              (fun track notes => for_each (body notes) track))).
Proof.
  intros Hb. unfold correct_pitch. rewrite final_omap.
  split; [reflexivity|]. simpl. apply for_each_final.
  - intros tr. apply Forall2_refl, same_but_note_refl.
  - intros tr. apply for_each_final; [apply same_but_note_refl|].
    intros m. apply Hb.
Qed.

(** With each of the three strategies, whether it returns or raises,
    [correct_pitch] keeps the messages in place and changes at most the
    pitch of note messages. *)
Lemma correct_pitch_layout (R : KeyResolver) (source : MidiFile)
  (key : Key R) (strategy : Strategy) :
  is_strategy strategy ->
  same_layout same_but_note source
    (final (correct_pitch R source key strategy)).
Proof.
  intros [ -> | [ -> | -> ] ].
  - apply (strategy_frame R source key shift_up_message).
    intros notes m. unfold shift_up_message.
    destruct (is_note m) eqn:Hn; simpl;
      [apply same_but_note_set_note; exact Hn|apply same_but_note_refl].
  - apply (strategy_frame R source key shift_down_message).
    intros notes m. unfold shift_down_message.
    destruct (is_note m) eqn:Hn; simpl;
      [apply same_but_note_set_note; exact Hn|apply same_but_note_refl].
  - apply (strategy_frame R source key shift_nearest_message).
    intros notes m. unfold shift_nearest_message.
    destruct (is_note m) eqn:Hn; simpl; [|apply same_but_note_refl].
    destruct (nearest notes (note m)); simpl;
      [apply same_but_note_set_note; exact Hn|apply same_but_note_refl].
Qed.

(** C3: for a key with at least one pitch, all of them in 0-127, and each
    of the three strategies, [correct_pitch] returns a file that has the
    tracks and messages of the one it was given, position by position, with
    their types, delta-times and velocities, and in which every note
    message has a pitch of the key. *)
Theorem correct_pitch_in_key (R : KeyResolver) (source : MidiFile)
  (key : Key R) (strategy : Strategy) :
  key_pitches R key <> [] -> in_range (key_pitches R key) ->
  strategy = shift_up \/ strategy = shift_down \/ strategy = shift_nearest ->
  exists source',
    correct_pitch R source key strategy = Return source' /\
    same_layout same_but_note source source' /\
    Forall (Forall (fun m => is_note m = true ->
                             In (note m) (key_pitches R key)))
           (tracks source').
Proof.
  intros Hne Hr Hs.
  pose proof (correct_pitch_layout R source key strategy Hs) as Hl.
  destruct Hs as [ -> | [ -> | -> ] ].
  - rewrite (correct_pitch_map R source key shift_up
               (shift_up_result (key_pitches R key))) in Hl |- *
      by (intros track; apply shift_up_returns).
    eexists. split; [reflexivity|]. split; [exact Hl|].
    simpl. apply Forall_map_map. intros m. unfold shift_up_result.
    destruct (is_note m) eqn:Hn; [|congruence].
    intros _. simpl. apply shift_up_note_member; assumption.
  - rewrite (correct_pitch_map R source key shift_down
               (shift_down_result (key_pitches R key))) in Hl |- *
      by (intros track; apply shift_down_returns).
    eexists. split; [reflexivity|]. split; [exact Hl|].
    simpl. apply Forall_map_map. intros m. unfold shift_down_result.
    destruct (is_note m) eqn:Hn; [|congruence].
    intros _. simpl. apply shift_down_note_member; assumption.
  - rewrite (correct_pitch_map R source key shift_nearest
               (shift_nearest_result (key_pitches R key))) in Hl |- *
      by (intros track; apply shift_nearest_returns; exact Hne).
    eexists. split; [reflexivity|]. split; [exact Hl|].
    simpl. apply Forall_map_map. intros m. unfold shift_nearest_result.
    destruct (is_note m) eqn:Hn; [|congruence].
    destruct (nearest_first _ (note m) Hne) as (r & -> & Hf).
    intros _. simpl. eapply first_nearest_member. exact Hf.
Qed.

Lemma correct_pitch_in_key_witness :
  let s := mkMidiFile 8 [[mkMessage note_on 0 2 64; mkMessage other 1 0 0;
                          mkMessage note_off 4 126 64]] in
  exists source',
    correct_pitch plain_keys s [0; 4; 7] shift_up = Return source' /\
    source' = mkMidiFile 8 [[mkMessage note_on 0 4 64; mkMessage other 1 0 0;
                             mkMessage note_off 4 7 64]] /\
    same_layout same_but_note s source' /\
    Forall (Forall (fun m => is_note m = true -> In (note m) [0; 4; 7]))
           (tracks source').
Proof.
  intros s.
  destruct (correct_pitch_in_key plain_keys s [0; 4; 7] shift_up)
    as (s' & H & Hl & Hk).
  - discriminate.
  - repeat (apply Forall_cons || apply Forall_nil); simpl; lia.
  - left. reflexivity.
  - exists s'. split; [exact H|]. split; [|split; assumption].
    assert (Hc : correct_pitch plain_keys s [0; 4; 7] shift_up
                 = Return (mkMidiFile 8 [[mkMessage note_on 0 4 64;
                                          mkMessage other 1 0 0;
                                          mkMessage note_off 4 7 64]]))
      by reflexivity.
    rewrite Hc in H. injection H as <-. reflexivity.
Defined.

(** C9: every transform leaves the file with the tracks and the messages
    it had, in their places and with their types, whether it returns or
    raises.  [align] changes nothing but the delta-time of note messages,
    and what it does to them does not depend on the other messages;
    [correct_pitch], with each strategy, changes nothing but the pitch of
    note messages; [normalize] changes nothing but their velocity. *)
Theorem transforms_keep_layout :
  (forall source precision,
     same_layout same_but_time source (final (align source precision))) /\
  (forall tick shift track,
     omap (on_first (filter is_note)) (align_messages tick shift track)
     = align_messages tick shift (filter is_note track)) /\
  (forall R source key,
     same_layout same_but_note source
       (final (correct_pitch R source key shift_up)) /\
     same_layout same_but_note source
       (final (correct_pitch R source key shift_down)) /\
     same_layout same_but_note source
       (final (correct_pitch R source key shift_nearest))) /\
  (forall source velocity,
     same_layout same_but_velocity source (normalize source velocity)).
Proof.
  split; [exact align_frame|].
  split; [intros; apply align_messages_notes_only|].
  split.
  - intros R source key. split; [|split].
    + apply (strategy_frame R source key shift_up_message).
      intros notes m. unfold shift_up_message.
      destruct (is_note m) eqn:Hn; simpl;
        [apply same_but_note_set_note; exact Hn|apply same_but_note_refl].
    + apply (strategy_frame R source key shift_down_message).
      intros notes m. unfold shift_down_message.
      destruct (is_note m) eqn:Hn; simpl;
        [apply same_but_note_set_note; exact Hn|apply same_but_note_refl].
    + apply (strategy_frame R source key shift_nearest_message).
      intros notes m. unfold shift_nearest_message.
      destruct (is_note m) eqn:Hn; simpl; [|apply same_but_note_refl].
      destruct (nearest notes (note m)); simpl;
        [apply same_but_note_set_note; exact Hn|apply same_but_note_refl].
  - intros source velocity. split; [reflexivity|]. simpl.
    apply Forall2_map_right. intros tr _.
    apply Forall2_map_right. intros m _.
    unfold normalize_message. destruct (is_note m) eqn:Hn.
    + repeat split. congruence.
    + repeat split.
Qed.

(** * Further properties of the module *)

(** ** normalize *)

Lemma normalize_message_overwrites (v w : Z) (m : Message) :
  normalize_message w (normalize_message v m) = normalize_message w m.
Proof.
  unfold normalize_message. destruct (is_note m) eqn:Hn.
  - change (is_note (set_velocity m v)) with (is_note m). rewrite Hn.
    reflexivity.
  - rewrite Hn. reflexivity.
Qed.

(** X1: a second [normalize] overrides the first: only the last velocity
    counts, and normalizing twice to the same velocity is normalizing
    once. *)
Theorem normalize_overwrites (source : MidiFile) (v w : Z) :
  normalize (normalize source v) w = normalize source w.
Proof.
  unfold normalize, set_tracks. simpl. f_equal.
  rewrite map_map. apply map_ext. intros track.
  rewrite map_map. apply map_ext. intros m.
  apply normalize_message_overwrites.
Qed.

Lemma normalized_to_unique (v : Z) (m m' : Message) :
  normalized_to v m m' -> m' = normalize_message v m.
Proof.
  intros [(Ht & Hd & Hn & Hsame) Hv]. unfold normalize_message.
  destruct (is_note m) eqn:E.
  - specialize (Hv eq_refl). destruct m, m'. simpl in *. subst.
    reflexivity.
  - apply Hsame. reflexivity.
Qed.

(** X2: [normalize] leaves the file with the tracks and messages it had,
    position by position; a note message has the velocity asked for and
    the type, delta-time and pitch it had, another message is as it was.
    No other file is in that relation with the one given. *)
Theorem normalize_sets_velocity (source : MidiFile) (v : Z) :
  same_layout (normalized_to v) source (normalize source v) /\
  (forall source',
     same_layout (normalized_to v) source source' ->
     source' = normalize source v).
Proof.
  split.
  - split; [reflexivity|]. simpl.
    apply Forall2_map_right. intros track _.
    apply Forall2_map_right. intros m _.
    unfold normalize_message. destruct (is_note m) eqn:Hn.
    + repeat split; congruence.
    + repeat split. congruence.
  - intros [tpb trs] [Ht Hl]. unfold normalize, set_tracks. simpl in *.
    subst tpb. f_equal.
    revert trs Hl. induction (tracks source) as [|track rest IH];
      intros trs Hl; inversion Hl as [|? track' ? rest' Htr Hrest]; subst.
    + reflexivity.
    + simpl. f_equal; [|apply IH; exact Hrest].
      clear - Htr. induction Htr as [|m m' l l' Hm Hl IHl]; simpl.
      * reflexivity.
      * f_equal; [apply normalized_to_unique; exact Hm|exact IHl].
Qed.

(** ** How align fails *)

(** With a grid unit other than 0, positive or negative, the message loop
    can fail on the float quotient only. *)
Lemma align_messages_raise (tick : Z) (track : MidiTrack) :
  tick <> 0 ->
  forall shift e a,
    align_messages tick shift track = Raise e a -> e = Py.OverflowError.
Proof.
  intros Ht. induction track as [|m rest IH]; intros shift e a; simpl.
  - discriminate.
  - assert (Hmod : Py.mod_ shift tick = Some (shift mod tick)).
    { unfold Py.mod_. destruct (Z.eqb_spec tick 0); [contradiction|].
      reflexivity. }
    assert (Hstep : forall m' s,
              omap (on_first (cons m')) (align_messages tick s rest)
              = Raise e a -> e = Py.OverflowError).
    { intros m' s H.
      destruct (align_messages tick s rest) as [r|e' r] eqn:Hr; simpl in H;
        [discriminate|].
      injection H as <- _. apply (IH s e' r Hr). }
    destruct (is_note m); simpl; [|apply Hstep].
    rewrite Hmod. destruct (time m + shift mod tick =? 0); simpl;
      [apply Hstep|].
    destruct (Py.round_truediv (time m + shift) tick) as [e'|q] eqn:Hq;
      [|apply Hstep].
    intros H. injection H as <- _.
    destruct (PyFacts.round_truediv_error _ _ _ Hq) as [[H0 _]|[_ He]];
      [contradiction|exact He].
Qed.

(** A loop that raises does so in its body, on one of the elements. *)
Lemma for_each_raise_body {A : Type} (body : A -> outcome A) (l : list A)
  (e : Py.exn) (a : list A) :
  for_each body l = Raise e a ->
  exists x x', In x l /\ body x = Raise e x'.
Proof.
  revert a. induction l as [|y rest IH]; intros a H; simpl in H.
  - discriminate.
  - destruct (body y) as [y'|e' y'] eqn:Hy.
    + destruct (for_each body rest) as [r|e'' r] eqn:Hr; simpl in H;
        [discriminate|].
      injection H as -> _.
      destruct (IH r eq_refl) as (x & x' & Hin & Hx).
      exists x, x'. split; [right; exact Hin|exact Hx].
    + injection H as -> _. exists y, y'. split; [left; reflexivity|exact Hy].
Qed.

(** The loop over the tracks fails in two ways: on a grid unit of 0 and a
    file with a note message, with a [ZeroDivisionError] and nothing
    changed; on another grid unit, with the [OverflowError] of the float
    quotient. *)
Lemma for_each_align_track_raise (tick : Z) (trs : list MidiTrack)
  (e : Py.exn) (a : list MidiTrack) :
  for_each (align_track tick) trs = Raise e a ->
  (tick = 0 /\ e = Py.ZeroDivisionError /\ a = trs /\
   existsb (existsb is_note) trs = true)
  \/ (tick <> 0 /\ e = Py.OverflowError).
Proof.
  intros H. destruct (Z.eq_dec tick 0) as [->|Hne].
  - left. rewrite for_each_align_track_zero_tick in H.
    destruct (existsb (existsb is_note) trs); [|discriminate].
    injection H as <- <-. repeat split.
  - right. split; [exact Hne|].
    destruct (for_each_raise_body _ _ _ _ H) as (track & x' & _ & Hx).
    unfold align_track in Hx.
    destruct (align_messages tick 0 track) as [r|e' r] eqn:Hr; simpl in Hx;
      [discriminate|].
    injection Hx as <- _.
    apply (align_messages_raise tick track Hne 0 e' r Hr).
Qed.

Lemma grid_test (n : Z) :
  (Py.count "1" (Py.bin n) =? 1)%nat = true <-> power_of_two (Z.abs n).
Proof. rewrite Nat.eqb_eq. apply PyFacts.count_bin_one. Qed.

(** X3: [align] raises a [ValueError] exactly when the absolute value of
    [ticks_per_beat] or of the precision is not a power of two: the test
    counts binary digits and does not see a sign. *)
Theorem align_value_error_iff (source : MidiFile) (precision : Z) :
  raises Py.ValueError (align source precision) <->
  ~ power_of_two (Z.abs (ticks_per_beat source)) \/
  ~ power_of_two (Z.abs precision).
Proof.
  unfold align.
  destruct (Py.count "1" (Py.bin (ticks_per_beat source)) =? 1)%nat eqn:Ht;
    simpl.
  - destruct (Py.count "1" (Py.bin precision) =? 1)%nat eqn:Hp; simpl.
    + apply grid_test in Ht. apply grid_test in Hp. split.
      * intros [a H]. exfalso.
        destruct (Py.floordiv _ _) as [tick|]; [|discriminate].
        destruct (for_each (align_track tick) (tracks source))
          as [r|e r] eqn:Hl; simpl in H; [discriminate|].
        apply for_each_align_track_raise in Hl.
        destruct Hl as [(_ & -> & _)|(_ & ->)]; discriminate.
      * intros [H|H]; contradiction.
    + split.
      * intros _. right. rewrite <- grid_test, Hp. discriminate.
      * intros _. eexists. reflexivity.
  - split.
    + intros _. left. rewrite <- grid_test, Ht. discriminate.
    + intros _. eexists. reflexivity.
Qed.

(** X4: [align] fails in three ways.  On one of its two tests, with a
    [ValueError]; past them, with a [ZeroDivisionError] when the grid unit
    [ticks_per_beat // precision] is 0 and the file has a note message;
    in both cases nothing in the file has been changed.  Otherwise the
    failure is the [OverflowError] of the float quotient of line 49, on a
    grid unit other than 0, and notes met before it may have been
    re-timed. *)
Theorem align_failure (source : MidiFile) (precision : Z) (e : Py.exn)
  (a : MidiFile) :
  align source precision = Raise e a ->
  (e = Py.ValueError /\ a = source /\
   (~ power_of_two (Z.abs (ticks_per_beat source)) \/
    ~ power_of_two (Z.abs precision)))
  \/
  (e = Py.ZeroDivisionError /\ a = source /\
   ticks_per_beat source / precision = 0 /\ has_note source = true)
  \/
  (e = Py.OverflowError /\ ticks_per_beat source / precision <> 0 /\
   power_of_two (Z.abs (ticks_per_beat source)) /\
   power_of_two (Z.abs precision)).
Proof.
  unfold align.
  destruct (Py.count "1" (Py.bin (ticks_per_beat source)) =? 1)%nat eqn:Ht;
    simpl.
  - destruct (Py.count "1" (Py.bin precision) =? 1)%nat eqn:Hp; simpl.
    + unfold Py.floordiv. destruct (Z.eqb_spec precision 0) as [E|E].
      * exfalso. subst precision. discriminate Hp.
      * intros H.
        destruct (for_each _ (tracks source)) as [r|e' r] eqn:Hl;
          simpl in H; [discriminate|].
        injection H as <- <-.
        apply grid_test in Ht. apply grid_test in Hp.
        apply for_each_align_track_raise in Hl.
        destruct Hl as [(H0 & -> & -> & Hn)|(Hne & ->)].
        -- right. left. repeat split; try assumption.
           apply set_tracks_same.
        -- right. right. repeat split; assumption.
    + intros H. injection H as <- <-. left.
      split; [reflexivity|]. split; [reflexivity|].
      right. rewrite <- grid_test, Hp. discriminate.
  - intros H. injection H as <- <-. left.
    split; [reflexivity|]. split; [reflexivity|].
    left. rewrite <- grid_test, Ht. discriminate.
Qed.

Lemma align_failure_witness :
  let s := mkMidiFile 8 [[mkMessage note_on 3 60 64;
                          mkMessage note_on (2 ^ 1030) 60 64]] in
  exists a, align s 2 = Raise Py.OverflowError a /\
            ticks_per_beat s / 2 <> 0.
Proof.
  intros s.
  assert (H : align s 2
              = Raise Py.OverflowError
                  (mkMidiFile 8 [[mkMessage note_on 4 60 64;
                                  mkMessage note_on (2 ^ 1030) 60 64]]))
    by (vm_compute; reflexivity).
  eexists. split; [exact H|].
  destruct (align_failure s 2 _ _ H)
    as [(He & _)|[(He & _)|(_ & Hne & _)]];
    [discriminate He|discriminate He|exact Hne].
Defined.

(** ** Files align leaves as they are *)

(** [align] on a proper grid and within the range of exact floats, as a
    map over the tracks. *)
Lemma align_returns_tracks (source : MidiFile) (precision : Z) :
  power_of_two (ticks_per_beat source) -> power_of_two precision ->
  precision <= ticks_per_beat source ->
  float_range source ->
  let tick := ticks_per_beat source / precision in
  (0 < tick /\ power_of_two tick /\ tick <= 2 ^ 52) /\
  align source precision
  = Return (set_tracks source
              (map (fun track => fst (final (align_messages tick 0 track)))
                   (tracks source))).
Proof.
  intros Ht Hp Hle Hf tick.
  pose proof (grid_unit source precision Ht Hp Hle (proj1 Hf)) as Hg.
  fold tick in Hg. split; [exact Hg|].
  destruct Hg as (Htick & Hpow & Hsmall).
  rewrite align_grid by assumption. fold tick.
  rewrite (for_each_map _
             (fun track => fst (final (align_messages tick 0 track))));
    [reflexivity|].
  intros track Hin. unfold align_track.
  destruct (align_messages_returns tick Htick Hpow Hsmall track 0
              (float_range_track source track Hf Hin) ltac:(simpl; lia))
    as (tr' & s' & -> & _).
  reflexivity.
Qed.

Lemma bound_weaken (track : MidiTrack) :
  Forall (fun m => Z.abs (time m) < 2 ^ 52) track ->
  Forall (fun m => Z.abs (time m) < 2 ^ 53) track.
Proof.
  apply Forall_impl. intros m H.
  change (2 ^ 53) with (2 ^ 52 + 2 ^ 52). lia.
Qed.

(** X5: within the range of exact floats, a file whose note messages all
    lie on the grid is returned as it is, whatever its other messages. *)
Theorem align_on_grid_unchanged (source : MidiFile) (precision : Z) :
  power_of_two (ticks_per_beat source) -> power_of_two precision ->
  precision <= ticks_per_beat source ->
  float_range source ->
  Forall (on_grid (ticks_per_beat source / precision)) (tracks source) ->
  align source precision = Return source.
Proof.
  intros Ht Hp Hle Hf Hg.
  destruct (align_returns_tracks source precision Ht Hp Hle Hf)
    as [(Htick & Hpow & Hsmall) ->].
  f_equal. transitivity (set_tracks source (tracks source));
    [|apply set_tracks_same].
  f_equal. rewrite <- (map_id (tracks source)) at 2. apply map_ext_in.
  intros track Hin. rewrite Forall_forall in Hg.
  rewrite align_messages_on_grid; try assumption; [reflexivity| |].
  - apply bound_weaken, (float_range_track source); assumption.
  - apply Hg. exact Hin.
Qed.

Lemma align_on_grid_unchanged_witness :
  let s := mkMidiFile 8 [[mkMessage note_on 4 60 64; mkMessage other 3 0 0;
                          mkMessage note_off 12 60 64]] in
  align s 2 = Return s.
Proof.
  intros s. apply align_on_grid_unchanged.
  - exists 3%nat. reflexivity.
  - exists 1%nat. reflexivity.
  - simpl. lia.
  - split; [simpl; lia|].
    repeat (apply Forall_cons || apply Forall_nil); simpl; lia.
  - repeat (apply Forall_cons || apply Forall_nil);
      intros H; try reflexivity; discriminate H.
Defined.

(** X6: with the precision equal to [ticks_per_beat] the grid unit is one
    tick, every delta-time lies on the grid, and [align] returns a file
    within the range of exact floats as it is. *)
Theorem align_finest_grid (source : MidiFile) :
  power_of_two (ticks_per_beat source) ->
  float_range source ->
  align source (ticks_per_beat source) = Return source.
Proof.
  intros Ht Hf. pose proof (PyFacts.power_of_two_pos _ Ht) as Hpos.
  apply align_on_grid_unchanged; try assumption; [lia|].
  rewrite Z.div_same by lia. apply Forall_forall. intros track _.
  apply Forall_forall. intros m _ _. apply Z.mod_1_r.
Qed.

Lemma align_finest_grid_witness :
  let s := mkMidiFile 4 [[mkMessage note_on 3 60 64;
                          mkMessage note_off 5 60 64]] in
  align s 4 = Return s.
Proof.
  intros s. apply (align_finest_grid s).
  - exists 2%nat. reflexivity.
  - split; [simpl; lia|].
    repeat (apply Forall_cons || apply Forall_nil); simpl; lia.
Defined.

(** ** Positions and delta-times after align *)

Section AlignPositions.
Import Py PyFacts.

Variable tick : Z.
Hypothesis tick_pos : 0 < tick.
Hypothesis tick_power : power_of_two tick.
Hypothesis tick_small : tick <= 2 ^ 52.

(** After any number of messages, the absolute time in the track the loop
    leaves is that of the track it found plus the shift carried in, up to
    the shift carried at that point: half a grid unit at most. *)
Lemma align_messages_prefix_drift (track : MidiTrack) : forall shift k,
  Forall (fun m => Z.abs (time m) < 2 ^ 52) track ->
  2 * Z.abs shift <= tick ->
  2 * Z.abs (time_sum (firstn k track) + shift
             - time_sum (firstn k
                           (fst (final (align_messages tick shift track)))))
  <= tick.
Proof.
  induction track as [|m rest IH]; intros shift k Hb Hs.
  - cbn [align_messages final fst]. rewrite firstn_nil. cbn [time_sum]. lia.
  - inversion Hb as [|? ? Hbm Hbrest]; subst.
    destruct k as [|k].
    { cbn [firstn time_sum]. lia. }
    cbn [align_messages].
    destruct (is_note m) eqn:Hn; cbn [negb].
    + rewrite mod_pos by exact tick_pos.
      destruct (time m + shift mod tick =? 0); cbn [negb].
      * rewrite final_omap. cbn [on_first fst firstn time_sum].
        specialize (IH shift k Hbrest Hs). unfold MidiTrack in *. lia.
      * rewrite (round_truediv_original tick tick_power tick_small)
          by assumption.
        rewrite final_omap. cbn [on_first fst firstn time_sum set_time time].
        pose proof (round_half_even_error (time m + shift) tick tick_pos)
          as He.
        specialize (IH _ k Hbrest He). unfold MidiTrack in *. lia.
    + rewrite final_omap. cbn [on_first fst firstn time_sum].
      specialize (IH shift k Hbrest Hs). unfold MidiTrack in *. lia.
Qed.

(** A non-negative dividend down to minus half the divisor rounds to a
    non-negative quotient: minus one half rounds to 0. *)
Lemma round_half_even_nonneg (x : Z) :
  - tick <= 2 * x -> 0 <= round_half_even x tick.
Proof.
  intros Hx. unfold round_half_even.
  pose proof (Z.div_mod x tick ltac:(lia)) as Hd.
  pose proof (Z.mod_pos_bound x tick tick_pos) as Hr.
  set (q := x / tick) in *. set (r := x mod tick) in *.
  assert (Hq : -1 <= q) by nia.
  destruct (Z.compare_spec (2 * r) tick) as [E|L|G].
  - destruct (Z.eq_dec q (-1)) as [->|Hne]; [reflexivity|].
    destruct (Z.even q); lia.
  - nia.
  - lia.
Qed.

(** The loop makes no delta-time negative. *)
Lemma align_messages_nonneg (track : MidiTrack) : forall shift,
  Forall (fun m => 0 <= time m) track ->
  Forall (fun m => Z.abs (time m) < 2 ^ 52) track ->
  2 * Z.abs shift <= tick ->
  Forall (fun m => 0 <= time m)
         (fst (final (align_messages tick shift track))).
Proof.
  induction track as [|m rest IH]; intros shift Hpos Hb Hs; simpl.
  - constructor.
  - inversion Hpos as [|? ? Hm Hrest]; subst.
    inversion Hb as [|? ? Hbm Hbrest]; subst.
    destruct (is_note m) eqn:Hn; simpl.
    + rewrite mod_pos by exact tick_pos.
      destruct (time m + shift mod tick =? 0); simpl.
      * rewrite final_omap. simpl. constructor; [exact Hm|].
        apply IH; assumption.
      * rewrite (round_truediv_original tick tick_power tick_small)
          by assumption.
        rewrite final_omap. simpl.
        pose proof (round_half_even_error (time m + shift) tick tick_pos)
          as He.
        constructor; [|apply IH; assumption]. simpl.
        apply Z.mul_nonneg_nonneg; [lia|].
        apply round_half_even_nonneg. lia.
    + rewrite final_omap. simpl. constructor; [exact Hm|].
      apply IH; assumption.
Qed.

End AlignPositions.

(** X7: on a proper grid and within the range of exact floats [align]
    moves no message, note or other, by more than half a grid unit: after
    any number of messages of a track, the absolute time reached in the
    aligned track is within half a grid unit of the one reached in the
    original. *)
Theorem align_position_drift (source : MidiFile) (precision : Z) :
  power_of_two (ticks_per_beat source) -> power_of_two precision ->
  precision <= ticks_per_beat source ->
  float_range source ->
  exists source',
    align source precision = Return source' /\
    Forall2 (fun track track' =>
               forall k,
                 2 * Z.abs (time_sum (firstn k track)
                            - time_sum (firstn k track'))
                 <= ticks_per_beat source / precision)
            (tracks source) (tracks source').
Proof.
  intros Ht Hp Hle Hf.
  destruct (align_returns_tracks source precision Ht Hp Hle Hf)
    as [(Htick & Hpow & Hsmall) H].
  eexists. split; [exact H|]. simpl.
  apply Forall2_map_right. intros track Hin k.
  pose proof (align_messages_prefix_drift _ Htick Hpow Hsmall track 0 k
                (float_range_track source track Hf Hin)
                ltac:(simpl; lia))
    as Hd.
  rewrite Z.add_0_r in Hd. exact Hd.
Qed.

Lemma align_position_drift_witness :
  exists source',
    align (mkMidiFile 8 [[mkMessage note_on 3 60 64; mkMessage other 5 0 0;
                          mkMessage note_off 6 60 64]]) 2
    = Return source' /\
    Forall2 (fun track track' =>
               forall k,
                 2 * Z.abs (time_sum (firstn k track)
                            - time_sum (firstn k track'))
                 <= 4)
            [[mkMessage note_on 3 60 64; mkMessage other 5 0 0;
              mkMessage note_off 6 60 64]]
            (tracks source').
Proof.
  apply (align_position_drift
           (mkMidiFile 8 [[mkMessage note_on 3 60 64; mkMessage other 5 0 0;
                           mkMessage note_off 6 60 64]]) 2).
  - exists 3%nat. reflexivity.
  - exists 1%nat. reflexivity.
  - simpl. lia.
  - split; [simpl; lia|].
    repeat (apply Forall_cons || apply Forall_nil); simpl; lia.
Defined.

(** X8: on a proper grid and within the range of exact floats [align]
    keeps the delta-times of a file non-negative: a note met half a grid
    unit before its grid point is put on it, never before the message that
    precedes it. *)
Theorem align_keeps_times_nonneg (source : MidiFile) (precision : Z) :
  power_of_two (ticks_per_beat source) -> power_of_two precision ->
  precision <= ticks_per_beat source ->
  nonneg_times source -> float_range source ->
  exists source',
    align source precision = Return source' /\ nonneg_times source'.
Proof.
  intros Ht Hp Hle Hpos Hf.
  destruct (align_returns_tracks source precision Ht Hp Hle Hf)
    as [(Htick & Hpow & Hsmall) H].
  eexists. split; [exact H|]. unfold nonneg_times in *. simpl.
  rewrite Forall_forall in *. intros track' Hin.
  apply in_map_iff in Hin. destruct Hin as (track & <- & Hin).
  apply align_messages_nonneg; try assumption; [| |simpl; lia].
  - apply Hpos. exact Hin.
  - apply (float_range_track source); assumption.
Qed.

Lemma align_keeps_times_nonneg_witness :
  exists source',
    align (mkMidiFile 8 [[mkMessage note_on 6 60 64;
                          mkMessage note_off 0 60 64]]) 2
    = Return source' /\ nonneg_times source'.
Proof.
  apply (align_keeps_times_nonneg
           (mkMidiFile 8 [[mkMessage note_on 6 60 64;
                           mkMessage note_off 0 60 64]]) 2).
  - exists 3%nat. reflexivity.
  - exists 1%nat. reflexivity.
  - simpl. lia.
  - repeat (apply Forall_cons || apply Forall_nil); simpl; lia.
  - split; [simpl; lia|].
    repeat (apply Forall_cons || apply Forall_nil); simpl; lia.
Defined.

(** ** The transforms in a pipeline *)

(** A loop commutes with a change of the elements that its body commutes
    with, whether it returns or raises. *)
Lemma for_each_commute {A : Type} (body : A -> outcome A) (g : A -> A)
  (l : list A) :
  (forall x, body (g x) = omap g (body x)) ->
  for_each body (map g l) = omap (map g) (for_each body l).
Proof.
  intros Hb. induction l as [|x rest IH]; simpl; [reflexivity|].
  rewrite Hb. destruct (body x) as [x'|e x']; simpl; [|reflexivity].
  rewrite IH. destruct (for_each body rest); reflexivity.
Qed.

Lemma align_messages_map (f : Message -> Message) (tick : Z)
  (track : MidiTrack) :
  time_blind f ->
  forall shift,
    align_messages tick shift (map f track)
    = omap (on_first (map f)) (align_messages tick shift track).
Proof.
  intros (Hnote & Htime & Hset).
  induction track as [|m rest IH]; intros shift; simpl; [reflexivity|].
  rewrite Hnote, Htime.
  assert (Hstep : forall m' s,
            omap (on_first (cons (f m')))
                 (align_messages tick s (map f rest))
            = omap (on_first (map f))
                   (omap (on_first (cons m')) (align_messages tick s rest))).
  { intros m' s. rewrite IH, !omap_omap.
    destruct (align_messages tick s rest); reflexivity. }
  destruct (is_note m); simpl.
  - destruct (Py.mod_ shift tick) as [r|]; [|reflexivity].
    destruct (time m + r =? 0); simpl; [apply Hstep|].
    destruct (Py.round_truediv (time m + shift) tick) as [e|q];
      [reflexivity|].
    rewrite <- Hset. apply Hstep.
  - apply Hstep.
Qed.

(** [align] does to a file with its messages changed by a [time_blind]
    function what it does to the file, the messages changed afterwards. *)
Lemma align_map_messages (f : Message -> Message) (source : MidiFile)
  (precision : Z) :
  time_blind f ->
  align (map_messages f source) precision
  = omap (map_messages f) (align source precision).
Proof.
  intros Hf. unfold align. simpl.
  destruct (negb _); [reflexivity|].
  destruct (negb _); [reflexivity|].
  destruct (Py.floordiv _ _) as [tick|]; [|reflexivity].
  rewrite (for_each_commute (align_track tick) (map f)).
  - destruct (for_each (align_track tick) (tracks source)); reflexivity.
  - intros track. unfold align_track.
    rewrite (align_messages_map f tick track Hf), !omap_omap.
    destruct (align_messages tick 0 track); reflexivity.
Qed.

Lemma time_blind_normalize_message (v : Z) :
  time_blind (normalize_message v).
Proof.
  unfold normalize_message. repeat split; intros m; intros;
    change (is_note (set_time m t)) with (is_note m) || idtac;
    destruct (is_note m) eqn:Hn; try reflexivity; simpl; assumption.
Qed.

(** X9: [normalize] and [align] can be applied in either order: aligning a
    normalized file gives what normalizing the aligned file gives, and
    [align] fails on the one when it fails on the other. *)
Theorem align_normalize_commute (source : MidiFile) (precision v : Z) :
  align (normalize source v) precision
  = omap (fun source' => normalize source' v) (align source precision).
Proof.
  apply (align_map_messages (normalize_message v)).
  apply time_blind_normalize_message.
Qed.

Lemma correct_pitch_commute (R : KeyResolver) (source : MidiFile)
  (key : Key R) (body : list Z -> Message -> outcome Message)
  (g : Message -> Message) :
  (forall notes m, body notes (g m) = omap g (body notes m)) ->
  correct_pitch R (map_messages g source) key
    (fun track notes => for_each (body notes) track)
  = omap (map_messages g)
         (correct_pitch R source key
            (fun track notes => for_each (body notes) track)).
Proof.
  intros Hb. unfold correct_pitch. simpl. cbv beta.
  set (loop := fun track : MidiTrack =>
                 for_each (body (key_pitches R key)) track).
  rewrite (for_each_commute loop (map g)).
  - destruct (for_each loop (tracks source)); reflexivity.
  - intros track. unfold loop. apply for_each_commute. apply Hb.
Qed.

(** X10: [normalize] and [correct_pitch] can be applied in either order,
    with each of the three strategies, also when the strategy fails. *)
Theorem correct_pitch_normalize_commute (R : KeyResolver)
  (source : MidiFile) (key : Key R) (v : Z) :
  correct_pitch R (normalize source v) key shift_up
  = omap (fun s => normalize s v) (correct_pitch R source key shift_up) /\
  correct_pitch R (normalize source v) key shift_down
  = omap (fun s => normalize s v) (correct_pitch R source key shift_down) /\
  correct_pitch R (normalize source v) key shift_nearest
  = omap (fun s => normalize s v) (correct_pitch R source key shift_nearest).
Proof.
  split; [|split].
  - apply (correct_pitch_commute R source key shift_up_message
             (normalize_message v)).
    intros notes m. unfold shift_up_message, normalize_message.
    destruct (is_note m) eqn:Hn; simpl; [|rewrite Hn; reflexivity].
    change (is_note (set_velocity m v)) with (is_note m).
    change (is_note (set_note m (shift_up_note notes (note m))))
      with (is_note m).
    rewrite Hn. reflexivity.
  - apply (correct_pitch_commute R source key shift_down_message
             (normalize_message v)).
    intros notes m. unfold shift_down_message, normalize_message.
    destruct (is_note m) eqn:Hn; simpl; [|rewrite Hn; reflexivity].
    change (is_note (set_velocity m v)) with (is_note m).
    change (is_note (set_note m (shift_down_note notes (note m))))
      with (is_note m).
    rewrite Hn. reflexivity.
  - apply (correct_pitch_commute R source key shift_nearest_message
             (normalize_message v)).
    intros notes m. unfold shift_nearest_message, normalize_message.
    destruct (is_note m) eqn:Hn; simpl; [|rewrite Hn; reflexivity].
    change (is_note (set_velocity m v)) with (is_note m). rewrite Hn.
    change (note (set_velocity m v)) with (note m).
    destruct (nearest notes (note m)) as [r|]; simpl.
    + change (is_note (set_note m r)) with (is_note m). rewrite Hn.
      reflexivity.
    + rewrite Hn. reflexivity.
Qed.

(** *** align and correct_pitch *)

Lemma time_blind_shift_up_result (notes : list Z) :
  time_blind (shift_up_result notes).
Proof.
  unfold shift_up_result. repeat split; intros m; intros;
    change (is_note (set_time m t)) with (is_note m) || idtac;
    destruct (is_note m) eqn:Hn; try reflexivity; simpl; assumption.
Qed.

Lemma time_blind_shift_down_result (notes : list Z) :
  time_blind (shift_down_result notes).
Proof.
  unfold shift_down_result. repeat split; intros m; intros;
    change (is_note (set_time m t)) with (is_note m) || idtac;
    destruct (is_note m) eqn:Hn; try reflexivity; simpl; assumption.
Qed.

Lemma time_blind_shift_nearest_result (notes : list Z) :
  time_blind (shift_nearest_result notes).
Proof.
  unfold shift_nearest_result. repeat split; intros m; intros;
    change (is_note (set_time m t)) with (is_note m) || idtac;
    change (note (set_time m t)) with (note m) || idtac;
    destruct (is_note m) eqn:Hn; try reflexivity;
    destruct (nearest notes (note m)); try reflexivity; simpl; assumption.
Qed.

(** [shift_nearest] on a key without pitches. *)
Lemma correct_pitch_nearest_empty (R : KeyResolver) (source : MidiFile)
  (key : Key R) :
  key_pitches R key = [] ->
  correct_pitch R source key shift_nearest
  = if has_note source then Raise Py.ValueError source else Return source.
Proof.
  intros He. unfold correct_pitch. rewrite He.
  rewrite (for_each_guard _ (existsb is_note) Py.ValueError)
    by (intros track; apply shift_nearest_empty).
  unfold has_note. destruct (existsb (existsb is_note) (tracks source));
    simpl; rewrite set_tracks_same; reflexivity.
Qed.

Lemma Forall2_same {A : Type} (R : A -> A -> Prop) (l l' : list A) :
  Forall2 R l l' -> (forall x x', In x l -> R x x' -> x' = x) -> l' = l.
Proof.
  intros H. induction H as [|x x' l l' Hx Hl IH]; intros Hsame.
  - reflexivity.
  - f_equal.
    + apply Hsame; [left; reflexivity|exact Hx].
    + apply IH. intros y y' Hy. apply Hsame. right. exact Hy.
Qed.

(** A file without note messages has nothing for [align] to change. *)
Lemma align_without_notes (source source' : MidiFile) (precision : Z) :
  has_note source = false ->
  align source precision = Return source' -> source' = source.
Proof.
  intros Hn Ha. pose proof (align_frame source precision) as [Ht Hl].
  rewrite Ha in Ht, Hl. simpl in Ht, Hl.
  destruct source as [tpb trs], source' as [tpb' trs']. simpl in *.
  subst tpb'. f_equal. unfold has_note in Hn. simpl in Hn.
  apply (Forall2_same _ _ _ Hl). intros track track' Hin Htr.
  apply (Forall2_same _ _ _ Htr). intros m m' Hm (_ & _ & _ & Hsame).
  apply Hsame. destruct (is_note m) eqn:E; [|reflexivity].
  exfalso. assert (Hex : existsb (existsb is_note) trs = true).
  { apply existsb_exists. exists track. split; [exact Hin|].
    apply existsb_exists. exists m. split; assumption. }
  congruence.
Qed.

Lemma align_then_map (f : Message -> Message) (R : KeyResolver)
  (key : Key R) (strategy : Strategy) (source s1 s2 : MidiFile)
  (precision : Z) :
  time_blind f ->
  (forall s, correct_pitch R s key strategy = Return (map_messages f s)) ->
  align source precision = Return s1 ->
  correct_pitch R source key strategy = Return s2 ->
  exists s3,
    correct_pitch R s1 key strategy = Return s3 /\
    align s2 precision = Return s3.
Proof.
  intros Hf Hmap Ha Hc. exists (map_messages f s1).
  split; [apply Hmap|].
  rewrite Hmap in Hc. injection Hc as <-.
  rewrite (align_map_messages f source precision Hf), Ha. reflexivity.
Qed.

(** X11: [align] and [correct_pitch] can be applied in either order: when
    each of them returns on a file, each returns on the result of the
    other, and both orders give the same file. *)
Theorem align_correct_pitch_commute (R : KeyResolver) (key : Key R)
  (strategy : Strategy) (source s1 s2 : MidiFile) (precision : Z) :
  is_strategy strategy ->
  align source precision = Return s1 ->
  correct_pitch R source key strategy = Return s2 ->
  exists s3,
    correct_pitch R s1 key strategy = Return s3 /\
    align s2 precision = Return s3.
Proof.
  intros [ -> | [ -> | -> ] ] Ha Hc.
  - apply (align_then_map (shift_up_result (key_pitches R key))
             R key shift_up source s1 s2 precision);
      try assumption; [apply time_blind_shift_up_result|].
    intros s. apply correct_pitch_map. intros track. apply shift_up_returns.
  - apply (align_then_map (shift_down_result (key_pitches R key))
             R key shift_down source s1 s2 precision);
      try assumption; [apply time_blind_shift_down_result|].
    intros s. apply correct_pitch_map. intros track.
    apply shift_down_returns.
  - destruct (key_pitches R key) as [|x rest] eqn:Hk.
    + rewrite (correct_pitch_nearest_empty R source key Hk) in Hc.
      destruct (has_note source) eqn:Hn; [discriminate|].
      injection Hc as <-.
      pose proof (align_without_notes _ _ _ Hn Ha) as ->.
      exists source. split; [|exact Ha].
      rewrite (correct_pitch_nearest_empty R source key Hk), Hn.
      reflexivity.
    + apply (align_then_map (shift_nearest_result (key_pitches R key))
               R key shift_nearest source s1 s2 precision);
        try assumption; [apply time_blind_shift_nearest_result|].
      intros s. apply correct_pitch_map. intros track.
      apply shift_nearest_returns. rewrite Hk. discriminate.
Qed.

Lemma align_correct_pitch_commute_witness :
  let s := mkMidiFile 8 [[mkMessage note_on 3 2 64;
                          mkMessage note_off 6 2 64]] in
  exists s3,
    correct_pitch plain_keys
      (mkMidiFile 8 [[mkMessage note_on 4 2 64; mkMessage note_off 4 2 64]])
      [0; 4; 7] shift_up = Return s3 /\
    align (mkMidiFile 8 [[mkMessage note_on 3 4 64;
                          mkMessage note_off 6 4 64]]) 2 = Return s3.
Proof.
  intros s.
  apply (align_correct_pitch_commute plain_keys [0; 4; 7] shift_up s).
  - left. reflexivity.
  - reflexivity.
  - reflexivity.
Defined.

(** ** More on the strategies *)

(** A loop that returns has left elements on which its body changes
    nothing more, when the body is such on each element. *)
Lemma for_each_settled {A : Type} (body : A -> outcome A) :
  (forall x x', body x = Return x' -> body x' = Return x') ->
  forall l l', for_each body l = Return l' -> for_each body l' = Return l'.
Proof.
  intros Hb. induction l as [|x rest IH]; intros l' H; simpl in H.
  - injection H as <-. reflexivity.
  - destruct (body x) as [x'|e x'] eqn:Hx; [|discriminate].
    destruct (for_each body rest) as [r|e r] eqn:Hr; simpl in H;
      [|discriminate].
    injection H as <-. simpl.
    rewrite (Hb x x' Hx), (IH r eq_refl). reflexivity.
Qed.

(** [shift_up] and [shift_down] applied to their own result change
    nothing, whatever the key: the result is a pitch of the key, or the key
    has no pitch in 0-127 and the result is the end of the range the walk
    stops at. *)
Lemma shift_up_note_settled (notes : list Z) (n : Z) :
  shift_up_note notes (shift_up_note notes n) = shift_up_note notes n.
Proof.
  unfold shift_up_note.
  set (a := while_raise notes n). set (r := while_lower notes a).
  destruct (while_raise_spec notes n) as (A1 & A2 & A3 & A4 & A5).
  destruct (while_lower_spec notes a) as (L1 & L2 & L3 & L4 & L5).
  fold a in A1, A2, A3, A4, A5. fold r in L1, L2, L3, L4, L5.
  destruct (Z.ltb_spec 0 r) as [Hr|Hr].
  - rewrite (while_raise_member notes r (L2 Hr)).
    apply while_lower_member, L2, Hr.
  - destruct (Z.ltb_spec a 127) as [Ha|Ha].
    + assert (E : r = a).
      { unfold r. apply while_lower_member, A2, Ha. }
      rewrite E. rewrite (while_raise_member notes a (A2 Ha)).
      apply while_lower_member, A2, Ha.
    + assert (E : r = 0) by lia.
      destruct (while_raise_spec notes r) as (B1 & B2 & B3 & B4 & B5).
      set (a' := while_raise notes r) in *.
      destruct (Z.eq_dec a' r) as [Ea|Ea].
      * rewrite Ea. destruct (while_lower_spec notes r) as (C1 & _ & _ & C4 & C5).
        apply C5. lia.
      * assert (Ha' : a' = 127).
        { destruct (Z.ltb_spec a' 127) as [Hlt|Hge]; [|lia].
          exfalso. apply (L3 a'); [lia|apply B2; exact Hlt]. }
        destruct (while_lower_spec notes a') as (C1 & C2 & C3 & C4 & C5).
        set (r' := while_lower notes a') in *.
        destruct (Z.ltb_spec 0 r') as [Hr'|Hr']; [|lia].
        exfalso. apply (L3 r'); [lia|apply C2; exact Hr'].
Qed.

Lemma shift_down_note_settled (notes : list Z) (n : Z) :
  shift_down_note notes (shift_down_note notes n) = shift_down_note notes n.
Proof.
  unfold shift_down_note.
  set (a := while_lower notes n). set (r := while_raise notes a).
  destruct (while_lower_spec notes n) as (A1 & A2 & A3 & A4 & A5).
  destruct (while_raise_spec notes a) as (L1 & L2 & L3 & L4 & L5).
  fold a in A1, A2, A3, A4, A5. fold r in L1, L2, L3, L4, L5.
  destruct (Z.ltb_spec r 127) as [Hr|Hr].
  - rewrite (while_lower_member notes r (L2 Hr)).
    apply while_raise_member, L2, Hr.
  - destruct (Z.ltb_spec 0 a) as [Ha|Ha].
    + assert (E : r = a).
      { unfold r. apply while_raise_member, A2, Ha. }
      rewrite E. rewrite (while_lower_member notes a (A2 Ha)).
      apply while_raise_member, A2, Ha.
    + assert (E : r = 127) by lia.
      destruct (while_lower_spec notes r) as (B1 & B2 & B3 & B4 & B5).
      set (a' := while_lower notes r) in *.
      destruct (Z.eq_dec a' r) as [Ea|Ea].
      * rewrite Ea. destruct (while_raise_spec notes r) as (C1 & _ & _ & C4 & C5).
        apply C5. lia.
      * assert (Ha' : a' = 0).
        { destruct (Z.ltb_spec 0 a') as [Hlt|Hge]; [|lia].
          exfalso. apply (L3 a'); [lia|apply B2; exact Hlt]. }
        destruct (while_raise_spec notes a') as (C1 & C2 & C3 & C4 & C5).
        set (r' := while_raise notes a') in *.
        destruct (Z.ltb_spec r' 127) as [Hr'|Hr']; [|lia].
        exfalso. apply (L3 r'); [lia|apply C2; exact Hr'].
Qed.

Lemma nearest_member (notes : list Z) (n r : Z) :
  nearest notes n = Some r -> In r notes.
Proof.
  intros H. destruct notes as [|x rest]; [discriminate|].
  destruct (nearest_first (x :: rest) n ltac:(discriminate))
    as (r' & Hr' & Hf).
  rewrite Hr' in H. injection H as <-.
  eapply first_nearest_member. exact Hf.
Qed.

(** The nearest pitch of the key to a pitch of the key is that pitch. *)
Lemma nearest_of_member (notes : list Z) (n : Z) :
  In n notes -> nearest notes n = Some n.
Proof.
  intros Hin. destruct notes as [|x rest]; [contradiction|].
  destruct (nearest_first (x :: rest) n ltac:(discriminate))
    as (r & Hr & before & after & Hl & Hb & Ha).
  rewrite Hr. f_equal. rewrite Hl in Hin.
  apply in_app_or in Hin. destruct Hin as [Hin|[E|Hin]].
  - specialize (Hb n Hin). lia.
  - exact E.
  - specialize (Ha n Hin). lia.
Qed.

Lemma set_note_same (m : Message) : set_note m (note m) = m.
Proof. destruct m; reflexivity. Qed.

Lemma shift_up_message_settled (notes : list Z) (m m' : Message) :
  shift_up_message notes m = Return m' ->
  shift_up_message notes m' = Return m'.
Proof.
  unfold shift_up_message. destruct (is_note m) eqn:Hn; simpl; intros H;
    injection H as <-.
  - change (is_note (set_note m (shift_up_note notes (note m))))
      with (is_note m). rewrite Hn. simpl.
    rewrite shift_up_note_settled. reflexivity.
  - rewrite Hn. reflexivity.
Qed.

Lemma shift_down_message_settled (notes : list Z) (m m' : Message) :
  shift_down_message notes m = Return m' ->
  shift_down_message notes m' = Return m'.
Proof.
  unfold shift_down_message. destruct (is_note m) eqn:Hn; simpl; intros H;
    injection H as <-.
  - change (is_note (set_note m (shift_down_note notes (note m))))
      with (is_note m). rewrite Hn. simpl.
    rewrite shift_down_note_settled. reflexivity.
  - rewrite Hn. reflexivity.
Qed.

Lemma shift_nearest_message_settled (notes : list Z) (m m' : Message) :
  shift_nearest_message notes m = Return m' ->
  shift_nearest_message notes m' = Return m'.
Proof.
  unfold shift_nearest_message. destruct (is_note m) eqn:Hn.
  - destruct (nearest notes (note m)) as [r|] eqn:Hr; [|discriminate].
    intros H. injection H as <-.
    change (is_note (set_note m r)) with (is_note m). rewrite Hn.
    change (note (set_note m r)) with r.
    rewrite (nearest_of_member notes r (nearest_member notes _ r Hr)).
    reflexivity.
  - intros H. injection H as <-. rewrite Hn. reflexivity.
Qed.

Lemma correct_pitch_settled (R : KeyResolver) (key : Key R)
  (body : list Z -> Message -> outcome Message) (source source' : MidiFile) :
  (forall notes m m', body notes m = Return m' -> body notes m' = Return m') ->
  correct_pitch R source key
    (fun track notes => for_each (body notes) track) = Return source' ->
  correct_pitch R source' key
    (fun track notes => for_each (body notes) track) = Return source'.
Proof.
  intros Hb. unfold correct_pitch. cbv beta.
  set (loop := fun track : MidiTrack =>
                 for_each (body (key_pitches R key)) track).
  destruct (for_each loop (tracks source)) as [l|e l] eqn:Hl; simpl;
    [|discriminate].
  intros H. injection H as <-. simpl.
  rewrite (for_each_settled loop) with (l := tracks source);
    [reflexivity| |exact Hl].
  intros track track'. unfold loop. apply for_each_settled. apply Hb.
Qed.

(** X12: [correct_pitch] is idempotent with each of the three strategies
    and any key: the file it returns is returned as it is when
    [correct_pitch] is applied to it again. *)
Theorem correct_pitch_idempotent (R : KeyResolver) (key : Key R)
  (strategy : Strategy) (source source' : MidiFile) :
  is_strategy strategy ->
  correct_pitch R source key strategy = Return source' ->
  correct_pitch R source' key strategy = Return source'.
Proof.
  intros [ -> | [ -> | -> ] ].
  - apply (correct_pitch_settled R key shift_up_message).
    apply shift_up_message_settled.
  - apply (correct_pitch_settled R key shift_down_message).
    apply shift_down_message_settled.
  - apply (correct_pitch_settled R key shift_nearest_message).
    apply shift_nearest_message_settled.
Qed.

Lemma correct_pitch_idempotent_witness :
  let s' := mkMidiFile 8 [[mkMessage note_on 0 127 64;
                           mkMessage other 1 0 0]] in
  correct_pitch plain_keys s' [200] shift_down = Return s'.
Proof.
  intros s'.
  apply (correct_pitch_idempotent plain_keys [200] shift_down
           (mkMidiFile 8 [[mkMessage note_on 0 5 64; mkMessage other 1 0 0]])).
  - right. left. reflexivity.
  - reflexivity.
Defined.

(** What each strategy does to a message whose pitch, if it is a note, is
    in the key: nothing. *)
Lemma strategy_message_in_key (notes : list Z) (m : Message) :
  (is_note m = true -> In (note m) notes) ->
  shift_up_message notes m = Return m /\
  shift_down_message notes m = Return m /\
  shift_nearest_message notes m = Return m.
Proof.
  intros Hin. unfold shift_up_message, shift_down_message,
    shift_nearest_message, shift_up_note, shift_down_note.
  destruct (is_note m) eqn:Hn; simpl; [|repeat split].
  specialize (Hin eq_refl).
  rewrite (while_raise_member notes _ Hin), (while_lower_member notes _ Hin).
  rewrite (while_raise_member notes _ Hin).
  rewrite (nearest_of_member notes _ Hin), set_note_same.
  repeat split.
Qed.

(** X13: a file whose note messages all have a pitch of the key is
    returned as it is by [correct_pitch], with each of the three
    strategies. *)
Theorem correct_pitch_in_key_unchanged (R : KeyResolver) (key : Key R)
  (strategy : Strategy) (source : MidiFile) :
  is_strategy strategy ->
  pitches_in_key (key_pitches R key) source ->
  correct_pitch R source key strategy = Return source.
Proof.
  intros Hs Hk. unfold correct_pitch.
  rewrite for_each_unchanged; [simpl; rewrite set_tracks_same; reflexivity|].
  intros track Hin. unfold pitches_in_key in Hk.
  rewrite Forall_forall in Hk. specialize (Hk track Hin).
  rewrite Forall_forall in Hk.
  destruct Hs as [ -> | [ -> | -> ] ];
    apply for_each_unchanged; intros m Hm;
    apply (strategy_message_in_key _ m (Hk m Hm)).
Qed.

Lemma correct_pitch_in_key_unchanged_witness :
  let s := mkMidiFile 8 [[mkMessage note_on 0 4 64; mkMessage other 1 99 0;
                          mkMessage note_off 4 7 64]] in
  correct_pitch plain_keys s [0; 4; 7] shift_nearest = Return s.
Proof.
  intros s. apply (correct_pitch_in_key_unchanged plain_keys [0; 4; 7]).
  - right. right. reflexivity.
  - repeat (apply Forall_cons || apply Forall_nil); simpl; intros H;
      try tauto; discriminate H.
Defined.

Lemma shift_note_range (notes : list Z) (n : Z) :
  0 <= n <= 127 ->
  0 <= shift_up_note notes n <= 127 /\ 0 <= shift_down_note notes n <= 127.
Proof.
  intros Hn. unfold shift_up_note, shift_down_note.
  destruct (while_raise_spec notes n) as (A1 & _ & _ & A4 & _).
  destruct (while_lower_spec notes (while_raise notes n))
    as (B1 & _ & _ & B4 & _).
  destruct (while_lower_spec notes n) as (C1 & _ & _ & C4 & _).
  destruct (while_raise_spec notes (while_lower notes n))
    as (D1 & _ & _ & D4 & _).
  lia.
Qed.

(** X14: [shift_up] and [shift_down] never take a pitch out of 0-127,
    whatever the key holds, pitches out of range or none at all: on a file
    whose note pitches are in 0-127 they return a file whose note pitches
    are in 0-127. *)
Theorem shift_up_down_keep_range (R : KeyResolver) (key : Key R)
  (source : MidiFile) :
  pitches_in_range source ->
  (exists source',
     correct_pitch R source key shift_up = Return source' /\
     pitches_in_range source') /\
  (exists source',
     correct_pitch R source key shift_down = Return source' /\
     pitches_in_range source').
Proof.
  intros Hr. unfold pitches_in_range in *. rewrite Forall_forall in Hr.
  split.
  - eexists. split.
    + apply correct_pitch_map. intros track. apply shift_up_returns.
    + simpl. apply Forall_forall. intros track' Hin.
      apply in_map_iff in Hin. destruct Hin as (track & <- & Hin).
      specialize (Hr track Hin). rewrite Forall_forall in Hr.
      apply Forall_forall. intros m' Hm'.
      apply in_map_iff in Hm'. destruct Hm' as (m & <- & Hm).
      unfold shift_up_result. destruct (is_note m) eqn:Hn.
      * intros _. simpl. apply shift_note_range. apply Hr; assumption.
      * rewrite Hn. discriminate.
  - eexists. split.
    + apply correct_pitch_map. intros track. apply shift_down_returns.
    + simpl. apply Forall_forall. intros track' Hin.
      apply in_map_iff in Hin. destruct Hin as (track & <- & Hin).
      specialize (Hr track Hin). rewrite Forall_forall in Hr.
      apply Forall_forall. intros m' Hm'.
      apply in_map_iff in Hm'. destruct Hm' as (m & <- & Hm).
      unfold shift_down_result. destruct (is_note m) eqn:Hn.
      * intros _. simpl. apply shift_note_range. apply Hr; assumption.
      * rewrite Hn. discriminate.
Qed.

Lemma shift_up_down_keep_range_witness :
  exists source',
    correct_pitch plain_keys
      (mkMidiFile 8 [[mkMessage note_on 0 60 64]]) [200; -3] shift_up
    = Return source' /\
    pitches_in_range source'.
Proof.
  apply (shift_up_down_keep_range plain_keys [200; -3]
           (mkMidiFile 8 [[mkMessage note_on 0 60 64]])).
  repeat (apply Forall_cons || apply Forall_nil). intros _. simpl. lia.
Defined.

(** X15: [correct_pitch] with one of the three strategies fails in one
    case only: [shift_nearest] on a key without pitches and a file with a
    note message.  The failure is the [ValueError] of [min] on an empty
    sequence, and the file has not been changed. *)
Theorem correct_pitch_failure (R : KeyResolver) (key : Key R)
  (strategy : Strategy) (source : MidiFile) (e : Py.exn) (a : MidiFile) :
  is_strategy strategy ->
  correct_pitch R source key strategy = Raise e a ->
  strategy = shift_nearest /\ key_pitches R key = [] /\
  has_note source = true /\ e = Py.ValueError /\ a = source.
Proof.
  intros [ -> | [ -> | -> ] ] H.
  - rewrite (correct_pitch_map R source key shift_up
               (shift_up_result (key_pitches R key))) in H;
      [discriminate|].
    intros track. apply shift_up_returns.
  - rewrite (correct_pitch_map R source key shift_down
               (shift_down_result (key_pitches R key))) in H;
      [discriminate|].
    intros track. apply shift_down_returns.
  - destruct (key_pitches R key) as [|x rest] eqn:Hk.
    + rewrite (correct_pitch_nearest_empty R source key Hk) in H.
      destruct (has_note source); [|discriminate].
      injection H as <- <-. repeat split.
    + exfalso.
      rewrite (correct_pitch_map R source key shift_nearest
                 (shift_nearest_result (key_pitches R key))) in H;
        [discriminate|].
      intros track. apply shift_nearest_returns. rewrite Hk. discriminate.
Qed.

Lemma correct_pitch_failure_witness :
  let s := mkMidiFile 8 [[mkMessage other 1 0 0];
                         [mkMessage note_on 0 60 64]] in
  key_pitches plain_keys [] = [] /\ has_note s = true.
Proof.
  intros s.
  destruct (correct_pitch_failure plain_keys [] shift_nearest s
              Py.ValueError s) as (_ & Hk & Hn & _).
  - right. right. reflexivity.
  - reflexivity.
  - split; assumption.
Defined.
